(** * AnimationFrameOrder (O3DVisualizer.cpp): the ordered frame index

    The class keeps a [std::vector<double>] of "order" tags, sorted in
    increasing value, and maps a tag to its animation frame number with
    [std::lower_bound].  The embedding keeps the IEEE 754 comparisons of
    [double] ([<] is false and [!=] is true whenever NaN is involved), the
    binary search of [std::lower_bound], the position-based updates of the
    vector and the conversion of the results to [size_t]. *)

From Stdlib Require Import ZArith Lia.
From Stdlib.Floats Require Import SpecFloat.
From stdpp Require Import base option list sorting.
From stdpp Require Import strings pretty gmap.

(** ** IEEE 754 binary64 values and their comparisons *)

Module Double.

Local Open Scope Z_scope.

(** A [double]: a signed zero, a signed infinity, NaN, or a sign with a
    mantissa and an exponent. *)
Definition double : Type := spec_float.

Definition prec : Z := 53.
Definition emax : Z := 1024.

(** The literal for the integer [z] (exact for the small integers used
    in the examples). *)
Definition of_Z (z : Z) : double := binary_normalize prec emax z 0 false.

Definition NaN : double := S754_nan.
Definition pos_zero : double := S754_zero false.
Definition neg_zero : double := S754_zero true.

(** [a < b] *)
Definition dlt (a b : double) : bool := SFltb a b.
(** [a == b] *)
Definition deq (a b : double) : bool := SFeqb a b.
(** [a != b] *)
Definition dne (a b : double) : bool := negb (deq a b).

Definition is_nan (a : double) : bool :=
  match a with S754_nan => true | _ => false end.

(** A number: any double but NaN. *)
Definition num (a : double) : Prop := is_nan a = false.

(** The comparison key of a number: its class (infinities and sign), then
    its exponent, then its mantissa, ordered lexicographically. *)
Definition key (a : double) : option (Z * Z * Z) :=
  match a with
  | S754_nan => None
  | S754_zero _ => Some (0, 0, 0)
  | S754_infinity true => Some (-2, 0, 0)
  | S754_infinity false => Some (2, 0, 0)
  | S754_finite true m e => Some (-1, - e, - Z.pos m)
  | S754_finite false m e => Some (1, e, Z.pos m)
  end.

Definition key_lt (p q : Z * Z * Z) : Prop :=
  let '(a, b, c) := p in
  let '(a', b', c') := q in
  a < a' \/ (a = a' /\ (b < b' \/ (b = b' /\ c < c'))).

End Double.

Import Double.

(** ** [std::vector<T>]: positions are offsets from [begin()] *)

Section Vector.

Context {T : Type}.

(** [v.push_back(x)] *)
Definition push_back (v : list T) (x : T) : list T := v ++ [x].

(** [v.insert(begin() + pos, x)]; [pos] may be [end()]. *)
Definition vec_insert (v : list T) (pos : nat) (x : T) : option (list T) :=
  if decide (pos <= length v) then Some (take pos v ++ x :: drop pos v)
  else None.

(** [v.erase(begin() + pos)]; [pos] must be dereferenceable. *)
Definition vec_erase (v : list T) (pos : nat) : option (list T) :=
  if decide (pos < length v) then Some (take pos v ++ drop (S pos) v)
  else None.

End Vector.

(** ** [std::lower_bound(first, last, value)] with [operator<]

    The search of the C++ standard library: halve the remaining length,
    look at the middle element, keep the half that can still hold the
    answer.  [fuel] bounds the number of iterations; reading an element
    outside the vector or running out of fuel has no result. *)

Section LowerBound.

Context {T : Type} (less : T -> T -> bool).

Fixpoint lower_bound_loop (fuel : nat) (v : list T) (first len : nat)
    (value : T) : option nat :=
  match len with
  | O => Some first
  | S _ =>
      match fuel with
      | O => None
      | S fuel' =>
          let half := len / 2 in
          let middle := first + half in
          x ← v !! middle;
          if less x value
          then lower_bound_loop fuel' v (middle + 1) (len - half - 1) value
          else lower_bound_loop fuel' v first half value
      end
  end.

Definition lower_bound (v : list T) (value : T) : option nat :=
  lower_bound_loop (length v) v 0 (length v) value.

(** The number of leading elements that satisfy [p]. *)
Fixpoint partition_point (p : T -> bool) (v : list T) : nat :=
  match v with
  | [] => 0
  | x :: t => if p x then S (partition_point p t) else 0
  end.

(** No element at or after the partition point satisfies [p]: the
    precondition of [std::lower_bound] for [p x := x < value]. *)
Definition partitioned (p : T -> bool) (v : list T) : Prop :=
  forall i x, partition_point p v <= i -> v !! i = Some x -> p x = false.

End LowerBound.

(** ** [size_t]: unsigned integers of [w] bits *)

Module SizeT.

Local Open Scope Z_scope.

Definition SIZE_MAX (w : Z) : Z := 2 ^ w - 1.

(** Conversion of a signed value to [size_t]. *)
Definition to_size_t (w : Z) (z : Z) : Z := z mod 2 ^ w.

End SizeT.

Import SizeT.

(** ** [class AnimationFrameOrder] *)

Record AnimationFrameOrder : Type := { values_ : list double }.

(** The default-constructed object. *)
Definition empty : AnimationFrameOrder := {| values_ := [] |}.

(** [void AddValue(double order)]: [push_back] when the search ends at
    [end()], [insert] when it ends at a different value, nothing when the
    value found equals [order]. *)
Definition AddValue (self : AnimationFrameOrder) (order : double)
    : option AnimationFrameOrder :=
  it ← lower_bound dlt (values_ self) order;
  if decide (it = length (values_ self))
  then Some {| values_ := push_back (values_ self) order |}
  else
    x ← values_ self !! it;
    if dne x order
    then vs ← vec_insert (values_ self) it order; Some {| values_ := vs |}
    else Some self.

(** [void RemoveValue(double order)]: [erase] at the position found unless
    it is [end()]. *)
Definition RemoveValue (self : AnimationFrameOrder) (order : double)
    : option AnimationFrameOrder :=
  it ← lower_bound dlt (values_ self) order;
  if decide (it <> length (values_ self))
  then vs ← vec_erase (values_ self) it; Some {| values_ := vs |}
  else Some self.

(** [size_t GetFrameForValue(double order)]: [it - values_.begin()] unless
    the position found is [end()], else [-1]; both converted to [size_t]. *)
Definition GetFrameForValue (w : Z) (self : AnimationFrameOrder)
    (order : double) : option Z :=
  it ← lower_bound dlt (values_ self) order;
  if decide (it <> length (values_ self))
  then Some (to_size_t w (Z.of_nat it - 0))
  else Some (to_size_t w (-1)).

(** [size_t GetNumberOfFrames() const] *)
Definition GetNumberOfFrames (w : Z) (self : AnimationFrameOrder) : Z :=
  to_size_t w (Z.of_nat (length (values_ self))).

(** A run of [AddValue] calls, in the order of the list. *)
Fixpoint AddValues (self : AnimationFrameOrder) (orders : list double)
    : option AnimationFrameOrder :=
  match orders with
  | [] => Some self
  | order :: rest => self' ← AddValue self order; AddValues self' rest
  end.

(** The objects that calls can produce from a new object when no NaN is
    inserted. *)
Inductive reachable : AnimationFrameOrder -> Prop :=
  | reachable_empty : reachable empty
  | reachable_AddValue self order self' :
      reachable self -> num order -> AddValue self order = Some self' ->
      reachable self'
  | reachable_RemoveValue self order self' :
      reachable self -> RemoveValue self order = Some self' ->
      reachable self'.

(** Two objects of the examples: the values 1, 3 and the values 1, 2, 3. *)
Definition index_1_3 : AnimationFrameOrder :=
  {| values_ := [of_Z 1; of_Z 3] |}.

Definition index_1_2_3 : AnimationFrameOrder :=
  {| values_ := [of_Z 1; of_Z 2; of_Z 3] |}.

(** ** The vocabulary of the properties *)

Definition lt_double (a b : double) : Prop := dlt a b = true.

(** Strictly increasing: every element is less than every later one. *)
Definition increasing (s : list double) : Prop := StronglySorted lt_double s.

(** No two positions hold values that compare equal. *)
Definition no_duplicates (s : list double) : Prop :=
  forall i j x y, s !! i = Some x -> s !! j = Some y -> deq x y = true -> i = j.

(** The invariant of the data model: numbers, strictly increasing. *)
Definition Inv (self : AnimationFrameOrder) : Prop :=
  Forall num (values_ self) /\ increasing (values_ self).

(** [v] is stored: some element compares equal to it. *)
Definition stored (self : AnimationFrameOrder) (v : double) : Prop :=
  exists x, x ∈ values_ self /\ deq x v = true.

(** [v] is stored at position [i]. *)
Definition stored_at (self : AnimationFrameOrder) (i : nat) (v : double)
    : Prop :=
  exists x, values_ self !! i = Some x /\ deq x v = true.

(** The number of stored values strictly less than [v]. *)
Fixpoint count_less (s : list double) (v : double) : nat :=
  match s with
  | [] => 0
  | x :: t => (if dlt x v then 1 else 0) + count_less t v
  end.

(** The vector's size is representable in [size_t]. *)
Definition size_ok (w : Z) (self : AnimationFrameOrder) : Prop :=
  (Z.of_nat (length (values_ self)) <= SIZE_MAX w)%Z.

(** Two sequences are equal element by element under [==]. *)
Definition sim (s t : list double) : Prop :=
  Forall2 (fun x y => deq x y = true) s t.

Definition same_values (a b : AnimationFrameOrder) : Prop :=
  sim (values_ a) (values_ b).

(** [r] is the rank of some stored value. *)
Definition valid_rank (self : AnimationFrameOrder) (r : Z) : Prop :=
  exists i : nat, r = Z.of_nat i /\ i < length (values_ self).

(** The values do not hold both zeros: [+0 == -0] is the one case of two
    different doubles that compare equal. *)
Definition one_zero (l : list double) : Prop :=
  ~ (pos_zero ∈ l /\ neg_zero ∈ l).

(** Insertion before the first element that is not less than [v], unless
    that element equals [v]. *)
Fixpoint insert_sorted (v : double) (s : list double) : list double :=
  match s with
  | [] => [v]
  | x :: t =>
      if dlt x v then x :: insert_sorted v t
      else if dne x v then v :: x :: t else x :: t
  end.

(** Removal of the first element that is not less than [v]. *)
Fixpoint remove_lower (v : double) (s : list double) : list double :=
  match s with
  | [] => []
  | x :: t => if dlt x v then x :: remove_lower v t else t
  end.

(** A call on the index: [AddValue(order)] or [RemoveValue(order)]. *)
Inductive Op : Type :=
  | OpAddValue (order : double)
  | OpRemoveValue (order : double).

Definition run_op (self : AnimationFrameOrder) (op : Op)
    : option AnimationFrameOrder :=
  match op with
  | OpAddValue order => AddValue self order
  | OpRemoveValue order => RemoveValue self order
  end.

(** A run of calls, in the order of the list. *)
Fixpoint run_ops (self : AnimationFrameOrder) (ops : list Op)
    : option AnimationFrameOrder :=
  match ops with
  | [] => Some self
  | op :: rest => self' ← run_op self op; run_ops self' rest
  end.

(** The call inserts no NaN. *)
Definition op_num (op : Op) : Prop :=
  match op with
  | OpAddValue order => num order
  | OpRemoveValue _ => True
  end.

(** ** [int]: signed integers of 32 bits *)

Module Int.

Local Open Scope Z_scope.

Definition INT_MIN : Z := - 2 ^ 31.
Definition INT_MAX : Z := 2 ^ 31 - 1.

Definition in_int (z : Z) : Prop := INT_MIN <= z <= INT_MAX.

(** [a + b]: an overflow has no result. *)
Definition int_add (a b : Z) : option Z :=
  if decide (in_int (a + b)) then Some (a + b) else None.

End Int.

Import Int.

(** ** [Impl::UniquifyName] *)

(** [s << name << "_" << n] *)
Definition numbered (name : string) (n : Z) : string :=
  name +:+ "_" +:+ pretty n.

(** The [do ... while] loop, entered with the counter [n]; every round tries
    a new name, so more rounds than there are names in the set, plus one,
    are never needed. *)
Fixpoint UniquifyName_loop (fuel : nat) (added_names_ : gset string)
    (name : string) (n : Z) : option string :=
  match fuel with
  | O => None
  | S fuel' =>
      n ← int_add n 1;
      let unique := numbered name n in
      if decide (unique ∈ added_names_)
      then UniquifyName_loop fuel' added_names_ name n
      else Some unique
  end.

Definition UniquifyName (added_names_ : gset string) (name : string)
    : option string :=
  if decide (name ∉ added_names_) then Some name
  else UniquifyName_loop (S (size added_names_)) added_names_ name 0.

(** ** [gui::Rect] and [gui::Size], as this file builds and reads them *)

Module Rect.
Record t : Type := make { x : Z; y : Z; width : Z; height : Z }.
End Rect.

Module Size.
Record t : Type := make { width : Z; height : Z }.
End Size.

(** ** [class ButtonList]

    The children are given by the results of their [CalcPreferredSize];
    [f] is the widget's frame ([GetFrame()]). *)

Section ButtonList.

Local Open Scope Z_scope.

Variables (f : Rect.t) (spacing_ width_ : Z).

(** The loop of [CalcFrames], entered with the locals [x], [y] and
    [lineHeight]; the result lists the frames appended to [frames] by the
    remaining children. *)
Fixpoint CalcFrames_loop (children : list Size.t) (x y lineHeight : Z)
    : option (list Rect.t) :=
  match children with
  | [] => Some []
  | pref :: rest =>
      wrap ← (if decide (x > Rect.x f)
              then right ← int_add x (Size.width pref);
                   limit ← int_add (Rect.x f) width_;
                   Some (bool_decide (right > limit))
              else Some false);
      '(x, y, lineHeight) ←
        (if wrap : bool
         then below ← int_add y lineHeight;
              y' ← int_add below spacing_;
              Some (Rect.x f, y', 0)
         else Some (x, y, lineHeight));
      step ← int_add (Size.width pref) spacing_;
      x' ← int_add x step;
      frames ← CalcFrames_loop rest x' y
                 (Z.max lineHeight (Size.height pref));
      Some (Rect.make x y (Size.width pref) (Size.height pref) :: frames)
  end.

(** [std::vector<Rect> CalcFrames(const Theme &theme) const] *)
Definition CalcFrames (children : list Size.t) : option (list Rect.t) :=
  CalcFrames_loop children (Rect.x f) (Rect.y f) 0.

(** [void Layout(const Theme &theme)]: the frame given to each child, in
    order; [frames[i]] must exist. *)
Definition ButtonList_Layout (children : list Size.t)
    : option (list Rect.t) :=
  frames ← CalcFrames children;
  mapM (fun i : nat => frames !! i) (seq 0 (length children)).

End ButtonList.

(** Two frames are apart by the spacing: side by side in one row, or the
    second one below the first. *)
Definition separated (spacing : Z) (r1 r2 : Rect.t) : Prop :=
  (Rect.y r1 = Rect.y r2
   /\ Rect.x r1 + Rect.width r1 + spacing <= Rect.x r2)%Z
  \/ (Rect.y r1 + Rect.height r1 + spacing <= Rect.y r2)%Z.

(** The preferred sizes are not negative. *)
Definition size_nonneg (pref : Size.t) : Prop :=
  (0 <= Size.width pref /\ 0 <= Size.height pref)%Z.

(** The widths, with the spacing after each, and the heights likewise. *)
Definition total_width (spacing : Z) (children : list Size.t) : Z :=
  foldr (fun pref acc => Size.width pref + spacing + acc)%Z 0%Z children.

Definition total_height (spacing : Z) (children : list Size.t) : Z :=
  foldr (fun pref acc => Size.height pref + spacing + acc)%Z 0%Z children.

(** ** [O3DVisualizer::Impl]: objects, frames and animation

    [DrawObject] and [UIState] are declared in the header; the records keep
    the fields that the functions below read or write.  [current_frame] is
    a [size_t], as the parameter of [SetCurrentFrame] and the result of
    [GetCurrentFrame] are.  Calls on the widgets, the window, the scene,
    the log and the item-id maps change none of these fields (setting the
    value of a widget is taken not to run its change callback); they are
    recorded, in the order made, in [calls].  [UpdateObjectTree], which
    rebuilds the tree widget and the item-id maps from [objects_], is
    recorded as one call. *)

Module DrawObject.
Record t : Type :=
  make { name : string; group : string; order : double; is_visible : bool }.
End DrawObject.

Module UIState.
Record t : Type :=
  make { is_animating : bool;
         enabled_groups : gset string;
         current_frame : Z;
         frame_delay : double }.
End UIState.

Inductive Call : Type :=
  | Scene_ShowGeometry (name : string) (show : bool)
  | Scene_RemoveGeometry (name : string)
  | SceneWidget_ForceRedraw
  | AnimSlider_SetValue (v : Z)
  | AnimEdit_SetValue (v : Z)
  | AnimSlider_SetLimits (lo hi : Z)
  | AnimEdit_SetLimits (lo hi : Z)
  | AnimSlider_SetEnabled (enabled : bool)
  | AnimEdit_SetEnabled (enabled : bool)
  | Window_SetOnTickEvent (installed : bool)
  | Object2ItemId_erase (name : string)
  | Call_UpdateObjectTree
  | Scene_SetIndirectLight (path : string)
  | Log_Warning.

Module Impl.
Record t : Type :=
  make { added_groups_ : gset string;
         objects_ : list DrawObject.t;
         frames_ : AnimationFrameOrder;
         ui_state_ : UIState.t;
         next_animation_tick_clock_time_ : double;
         calls : list Call }.
End Impl.

(** [a >= b] on doubles *)
Definition dge (a b : double) : bool := SFleb b a.

(** [a + b] on doubles *)
Definition dadd (a b : double) : double := SFadd prec emax a b.

(** The literal [-1e30]: the double nearest to it. *)
Definition minus_1e30 : double := S754_finite true 7105427357601002 47.

Section ImplFrames.

Variable w : Z.

Definition current_frame (st : Impl.t) : Z :=
  UIState.current_frame (Impl.ui_state_ st).

Definition with_ui_state (st : Impl.t) (ui : UIState.t) : Impl.t :=
  Impl.make (Impl.added_groups_ st) (Impl.objects_ st) (Impl.frames_ st) ui
    (Impl.next_animation_tick_clock_time_ st) (Impl.calls st).

Definition with_current_frame (st : Impl.t) (f : Z) : Impl.t :=
  let ui := Impl.ui_state_ st in
  with_ui_state st
    (UIState.make (UIState.is_animating ui) (UIState.enabled_groups ui) f
       (UIState.frame_delay ui)).

Definition with_is_animating (st : Impl.t) (b : bool) : Impl.t :=
  let ui := Impl.ui_state_ st in
  with_ui_state st
    (UIState.make b (UIState.enabled_groups ui) (UIState.current_frame ui)
       (UIState.frame_delay ui)).

Definition with_enabled_groups (st : Impl.t) (g : gset string) : Impl.t :=
  let ui := Impl.ui_state_ st in
  with_ui_state st
    (UIState.make (UIState.is_animating ui) g (UIState.current_frame ui)
       (UIState.frame_delay ui)).

(** One more call on a collaborator. *)
Definition call (st : Impl.t) (c : Call) : Impl.t :=
  Impl.make (Impl.added_groups_ st) (Impl.objects_ st) (Impl.frames_ st)
    (Impl.ui_state_ st) (Impl.next_animation_tick_clock_time_ st)
    (Impl.calls st ++ [c]).

(** [for (auto &o : objects) body(o)] *)
Fixpoint for_each {A : Type} (body : Impl.t -> A -> option Impl.t)
    (st : Impl.t) (l : list A) : option Impl.t :=
  match l with
  | [] => Some st
  | a :: rest => st' ← body st a; for_each body st' rest
  end.

(** [bool IsGeometryVisible(const DrawObject &o)] *)
Definition IsGeometryVisible (st : Impl.t) (o : DrawObject.t) : option bool :=
  frame ← GetFrameForValue w (Impl.frames_ st) (DrawObject.order o);
  let is_current := bool_decide (frame = current_frame st) in
  let is_group_enabled :=
    bool_decide (DrawObject.group o
                 ∈ UIState.enabled_groups (Impl.ui_state_ st)) in
  let is_visible := DrawObject.is_visible o in
  Some (is_visible && is_current && is_group_enabled).

(** [void UpdateGeometryVisibility(const DrawObject &o)] *)
Definition UpdateGeometryVisibility (st : Impl.t) (o : DrawObject.t)
    : option Impl.t :=
  show ← IsGeometryVisible st o;
  Some (call (call st (Scene_ShowGeometry (DrawObject.name o) show))
          SceneWidget_ForceRedraw).

(** [void SetCurrentFrame(size_t f)] *)
Definition SetCurrentFrame (st : Impl.t) (f : Z) : option Impl.t :=
  let st := with_current_frame st f in
  let st :=
    if decide (current_frame st >= GetNumberOfFrames w (Impl.frames_ st))%Z
    then with_current_frame st 0%Z
    else st in
  st ← for_each UpdateGeometryVisibility st (Impl.objects_ st);
  Some (call (call st (AnimSlider_SetValue (current_frame st)))
          (AnimEdit_SetValue (current_frame st))).

(** [void SetAnimating(bool is_animating)] *)
Definition SetAnimating (st : Impl.t) (is_animating : bool)
    : option Impl.t :=
  if decide (is_animating = UIState.is_animating (Impl.ui_state_ st))
  then Some st
  else
    let st := with_is_animating st is_animating in
    st ← (if is_animating
          then Some (call (with_current_frame st
                             (GetNumberOfFrames w (Impl.frames_ st)))
                       (Window_SetOnTickEvent true))
          else SetCurrentFrame (call st (Window_SetOnTickEvent false)) 0%Z);
    Some (call (call st (AnimSlider_SetEnabled (negb is_animating)))
            (AnimEdit_SetEnabled (negb is_animating))).

(** [void UpdateAnimationTickClockTime(double now)] *)
Definition UpdateAnimationTickClockTime (st : Impl.t) (now : double)
    : Impl.t :=
  Impl.make (Impl.added_groups_ st) (Impl.objects_ st) (Impl.frames_ st)
    (Impl.ui_state_ st)
    (dadd now (UIState.frame_delay (Impl.ui_state_ st)))
    (Impl.calls st).

(** [bool OnAnimationTick()]; [now] is the result of
    [Application::GetInstance().Now()]. *)
Definition OnAnimationTick (st : Impl.t) (now : double)
    : option (bool * Impl.t) :=
  if dge now (Impl.next_animation_tick_clock_time_ st)
  then
    st ← SetCurrentFrame st (to_size_t w (current_frame st + 1));
    Some (true, UpdateAnimationTickClockTime st now)
  else Some (false, st).

(** A run of ticks at the given clock times; the results, in order, and
    the last state. *)
Fixpoint OnAnimationTicks (st : Impl.t) (nows : list double)
    : option (list bool * Impl.t) :=
  match nows with
  | [] => Some ([], st)
  | now :: rest =>
      '(fired, st') ← OnAnimationTick st now;
      '(results, st'') ← OnAnimationTicks st' rest;
      Some (fired :: results, st'')
  end.

(** The index of the first object called [name], counting from [i]. *)
Fixpoint find_name (name : string) (objects : list DrawObject.t) (i : nat)
    : option nat :=
  match objects with
  | [] => None
  | o :: rest =>
      if decide (DrawObject.name o = name) then Some i
      else find_name name rest (S i)
  end.

(** The [int] count of the objects whose order equals [order]. *)
Fixpoint count_order (order : double) (objects : list DrawObject.t) (n : Z)
    : option Z :=
  match objects with
  | [] => Some n
  | o :: rest =>
      n' ← (if deq (DrawObject.order o) order then int_add n 1 else Some n);
      count_order order rest n'
  end.

(** [void RemoveGeometry(const std::string &name)] *)
Definition RemoveGeometry (st : Impl.t) (name : string) : option Impl.t :=
  '(group, order, st) ←
    match find_name name (Impl.objects_ st) 0
          return option (string * double * Impl.t) with
    | Some i =>
        o ← Impl.objects_ st !! i;
        objects ← vec_erase (Impl.objects_ st) i;
        next ← objects !! i;
        Some (DrawObject.group o, DrawObject.order o,
              call (Impl.make (Impl.added_groups_ st) objects
                      (Impl.frames_ st) (Impl.ui_state_ st)
                      (Impl.next_animation_tick_clock_time_ st)
                      (Impl.calls st))
                (Object2ItemId_erase (DrawObject.name next)))
    | None => Some (EmptyString, minus_1e30, st)
    end;
  let groups : gset string :=
    list_to_set (DrawObject.group <$> Impl.objects_ st) in
  n_others_with_this_order ← count_order order (Impl.objects_ st) 0%Z;
  frames ← (if decide (n_others_with_this_order = 0%Z)
            then RemoveValue (Impl.frames_ st) order
            else Some (Impl.frames_ st));
  let st := Impl.make (Impl.added_groups_ st) (Impl.objects_ st) frames
              (Impl.ui_state_ st) (Impl.next_animation_tick_clock_time_ st)
              (Impl.calls st) in
  st ← (if decide (GetNumberOfFrames w (Impl.frames_ st) <= 1)%Z
        then SetAnimating st false else Some st);
  let limit := to_size_t w (GetNumberOfFrames w (Impl.frames_ st) - 1) in
  let st := call (call st (AnimSlider_SetLimits 0%Z limit))
              (AnimEdit_SetLimits 0%Z limit) in
  st ← SetCurrentFrame st (current_frame st);
  let st := Impl.make groups (Impl.objects_ st) (Impl.frames_ st)
              (Impl.ui_state_ st) (Impl.next_animation_tick_clock_time_ st)
              (Impl.calls st) in
  let st :=
    with_enabled_groups st
      (filter (fun g => g ∈ groups)
         (UIState.enabled_groups (Impl.ui_state_ st))) in
  Some (call (call (call st Call_UpdateObjectTree)
                (Scene_RemoveGeometry name))
          SceneWidget_ForceRedraw).

End ImplFrames.

(** The calls [UpdateGeometryVisibility] makes for the objects, given the
    flags it computes. *)
Definition visibility_calls (objects : list DrawObject.t)
    (shows : list bool) : list Call :=
  flat_map (fun ob : DrawObject.t * bool =>
              [Scene_ShowGeometry (DrawObject.name ob.1) ob.2;
               SceneWidget_ForceRedraw])
    (zip objects shows).

(** The frame after frame [c] when the index holds [n] values. *)
Definition next_frame (w n c : Z) : Z :=
  if decide (to_size_t w (c + 1) >= n)%Z then 0%Z else to_size_t w (c + 1).



(** An example: three objects at the orders 1, 3 and 1, not animating. *)
Definition example_objects : list DrawObject.t :=
  [DrawObject.make "a" "g" (of_Z 1) true;
   DrawObject.make "b" "g" (of_Z 3) true;
   DrawObject.make "c" "h" (of_Z 1) false].

Definition example_impl : Impl.t :=
  Impl.make {["g"; "h"]} example_objects index_1_3
    (UIState.make false {["g"]} 0 (of_Z 0)) (of_Z 0) [].

(** The state with further calls recorded. *)
Definition more_calls (st : Impl.t) (cs : list Call) : Impl.t :=
  Impl.make (Impl.added_groups_ st) (Impl.objects_ st) (Impl.frames_ st)
    (Impl.ui_state_ st) (Impl.next_animation_tick_clock_time_ st)
    (Impl.calls st ++ cs).

(** The frame [SetCurrentFrame(f)] settles on when the index holds [n]
    values. *)
Definition settled_frame (n f : Z) : Z :=
  if decide (f >= n)%Z then 0%Z else f.

(** The example, animating, with a frame delay that is NaN. *)
Definition example_NaN_delay : Impl.t :=
  with_ui_state example_impl (UIState.make true {["g"]} 0 NaN).

(** ** [std::string]: [find], [size] and [substr] as [SetIBL] uses them *)

(** The first position, counted from [i], at which [pat] occurs in [s]. *)
Fixpoint find_first (pat s : string) (i : nat) : option nat :=
  if String.prefix pat s then Some i
  else match s with
       | EmptyString => None
       | String _ s' => find_first pat s' (S i)
       end.

(** [s.find(pat)]: the position, or [npos], that is [(size_t)-1]. *)
Definition string_find (w : Z) (s pat : string) : Z :=
  match find_first pat s 0 with
  | Some i => to_size_t w (Z.of_nat i)
  | None => to_size_t w (-1)
  end.

(** [s.size()] *)
Definition string_size (w : Z) (s : string) : Z :=
  to_size_t w (Z.of_nat (String.length s)).

(** [s.substr(0, count)]: the first [count] characters, all of [s] when it
    has fewer. *)
Fixpoint substr_0 (count : Z) (s : string) : string :=
  match s with
  | EmptyString => EmptyString
  | String c s' =>
      if decide (0 < count)%Z then String c (substr_0 (count - 1) s')
      else EmptyString
  end.

Definition kDefaultIBL : string := "default".

(** [path.find("_ibl.ktx") == path.size() - 8] *)
Definition ends_with_ibl (w : Z) (path : string) : bool :=
  bool_decide (string_find w path "_ibl.ktx"
               = to_size_t w (string_size w path - 8)).

(** ** [Impl::SetIBL]

    [FileExists] is [utility::filesystem::FileExists] and [resource_path]
    the result of [Application::GetInstance().GetResourcePath()].  The
    function writes [ui_state_.ibl_path] only: it is given the old value
    and returns the new one with the calls made. *)

Section SetIBL.

Variables (w : Z) (FileExists : string -> bool) (resource_path : string).

Definition SetIBL (ibl_path : string) (path : string)
    : string * list Call :=
  let path :=
    if decide (path = EmptyString)
    then resource_path +:+ "/" +:+ kDefaultIBL
    else path in
  if FileExists (path +:+ "_ibl.ktx")
  then (path, [Scene_SetIndirectLight path; SceneWidget_ForceRedraw])
  else if FileExists path
  then
    if ends_with_ibl w path
    then
      let ibl_path := substr_0 (to_size_t w (string_size w path - 8)) path in
      (ibl_path, [Scene_SetIndirectLight ibl_path; SceneWidget_ForceRedraw])
    else (ibl_path, [Log_Warning])
  else (ibl_path, []).

End SetIBL.

(** ** The operations on small inputs *)

Example of_Z_1 : of_Z 1 = S754_finite false 4503599627370496 (-52).
Proof. reflexivity. Qed.

Example AddValues_3_1_2 :
  AddValues empty [of_Z 3; of_Z 1; of_Z 2] = Some index_1_2_3.
Proof. reflexivity. Qed.

Example AddValue_twice :
  AddValues empty [of_Z 1; of_Z 3; of_Z 1] = Some index_1_3.
Proof. reflexivity. Qed.

Example RemoveValue_stored :
  RemoveValue index_1_2_3 (of_Z 2) = Some index_1_3.
Proof. reflexivity. Qed.

Example GetFrameForValue_above :
  GetFrameForValue 64 index_1_3 (of_Z 4) = Some 18446744073709551615%Z.
Proof. reflexivity. Qed.

Example NaN_compares : dlt NaN NaN = false /\ dne NaN NaN = true.
Proof. split; reflexivity. Qed.

Example zeros_compare : deq pos_zero neg_zero = true.
Proof. reflexivity. Qed.

(** ** The order of the numbers *)

Section DoubleOrder.

Local Open Scope Z_scope.

Lemma compare_cont_Eq (m1 m2 : positive) :
  Pos.compare_cont Eq m1 m2 = (Z.pos m1 ?= Z.pos m2).
Proof. reflexivity. Qed.

Local Ltac key_lt_intro :=
  intros _; eexists _, _; split; [reflexivity|]; split; [reflexivity|];
  cbn; lia.

Local Ltac key_lt_elim :=
  let p := fresh "p" in
  let q := fresh "q" in
  let Hp := fresh "Hp" in
  let Hq := fresh "Hq" in
  let H := fresh "H" in
  intros (p & q & Hp & Hq & H);
  first [discriminate Hp | discriminate Hq
        | injection Hp as <-; injection Hq as <-; cbn in H;
          first [reflexivity | lia]].

Lemma dlt_key (a b : double) :
  dlt a b = true <->
  exists p q, key a = Some p /\ key b = Some q /\ key_lt p q.
Proof.
  unfold dlt, SFltb.
  destruct a as [[]|[]| |[] m1 e1], b as [[]|[]| |[] m2 e2]; cbn;
    try (split; [first [discriminate | key_lt_intro] | key_lt_elim]).
  all: rewrite compare_cont_Eq;
    destruct (Z.compare_spec e1 e2) as [He|He|He];
    [destruct (Z.compare_spec (Z.pos m1) (Z.pos m2)) as [Hm|Hm|Hm]| |];
    cbn; (split; [first [discriminate | key_lt_intro] | key_lt_elim]).
Qed.

Local Ltac key_eq_intro :=
  intros _; eexists; split; [reflexivity|];
  first [reflexivity | do 2 f_equal; [f_equal|]; lia].

Local Ltac key_eq_elim :=
  let p := fresh "p" in
  let Hp := fresh "Hp" in
  let Hq := fresh "Hq" in
  intros (p & Hp & Hq);
  first [discriminate Hp | discriminate Hq | reflexivity
        | injection Hp as <-; first [discriminate Hq | injection Hq; lia]].

Lemma deq_key (a b : double) :
  deq a b = true <-> exists p, key a = Some p /\ key b = Some p.
Proof.
  unfold deq, SFeqb.
  destruct a as [[]|[]| |[] m1 e1], b as [[]|[]| |[] m2 e2]; cbn;
    try (split; [first [discriminate | key_eq_intro] | key_eq_elim]).
  all: rewrite compare_cont_Eq;
    destruct (Z.compare_spec e1 e2) as [He|He|He];
    [destruct (Z.compare_spec (Z.pos m1) (Z.pos m2)) as [Hm|Hm|Hm]| |];
    cbn; (split; [first [discriminate | key_eq_intro] | key_eq_elim]).
Qed.

Lemma num_key (a : double) : num a <-> exists p, key a = Some p.
Proof.
  unfold num. destruct a as [[]|[]| |[] m e]; cbn;
    (split; [try discriminate; eauto | intros [p Hp]; congruence]).
Qed.

End DoubleOrder.

(** ** Consequences: [<] is a strict order on the numbers and [==] its
    equivalence *)

Section DoubleFacts.

Local Open Scope Z_scope.

Implicit Types a b c : double.

Lemma key_lt_irrefl (p : Z * Z * Z) : ~ key_lt p p.
Proof. destruct p as [[x y] z]. cbn. lia. Qed.

Lemma key_lt_trans (p q r : Z * Z * Z) : key_lt p q -> key_lt q r -> key_lt p r.
Proof. destruct p as [[? ?] ?], q as [[? ?] ?], r as [[? ?] ?]. cbn. lia. Qed.

Lemma key_lt_total (p q : Z * Z * Z) : key_lt p q \/ p = q \/ key_lt q p.
Proof.
  destruct p as [[x y] z], q as [[x' y'] z']. cbn.
  destruct (Z.lt_trichotomy x x') as [?|[->|?]]; [lia| |lia].
  destruct (Z.lt_trichotomy y y') as [?|[->|?]]; [lia| |lia].
  destruct (Z.lt_trichotomy z z') as [?|[->|?]]; [lia| |lia].
  right. left. reflexivity.
Qed.

Lemma dlt_false_key a b p q :
  key a = Some p -> key b = Some q -> dlt a b = false -> ~ key_lt p q.
Proof.
  intros Hp Hq Hf Hlt.
  assert (dlt a b = true) as Ht by (apply dlt_key; eauto).
  congruence.
Qed.

Lemma dlt_num_l a b : dlt a b = true -> num a.
Proof. intros (p & q & Hp & _)%dlt_key. apply num_key. eauto. Qed.

Lemma dlt_num_r a b : dlt a b = true -> num b.
Proof. intros (p & q & _ & Hq & _)%dlt_key. apply num_key. eauto. Qed.

Lemma dlt_irrefl a : dlt a a = false.
Proof.
  destruct (dlt a a) eqn:H; [|reflexivity].
  apply dlt_key in H as (p & q & Hp & Hq & H).
  rewrite Hp in Hq. injection Hq as <-. by apply key_lt_irrefl in H.
Qed.

Lemma dlt_trans a b c : dlt a b = true -> dlt b c = true -> dlt a c = true.
Proof.
  intros (p & q & Hp & Hq & H1)%dlt_key (q' & r & Hq' & Hr & H2)%dlt_key.
  rewrite Hq in Hq'. injection Hq' as <-.
  apply dlt_key. exists p, r. eauto using key_lt_trans.
Qed.

Lemma dlt_asym a b : dlt a b = true -> dlt b a = false.
Proof.
  intros H. destruct (dlt b a) eqn:H'; [|reflexivity].
  pose proof (dlt_trans _ _ _ H H') as Haa. by rewrite dlt_irrefl in Haa.
Qed.

Lemma deq_num_l a b : deq a b = true -> num a.
Proof. intros (p & Hp & _)%deq_key. apply num_key. eauto. Qed.

Lemma deq_num_r a b : deq a b = true -> num b.
Proof. intros (p & _ & Hp)%deq_key. apply num_key. eauto. Qed.

Lemma deq_refl a : num a -> deq a a = true.
Proof. intros [p Hp]%num_key. apply deq_key. eauto. Qed.

Lemma deq_sym a b : deq a b = true -> deq b a = true.
Proof. intros (p & Hp & Hq)%deq_key. apply deq_key. eauto. Qed.

Lemma deq_trans a b c : deq a b = true -> deq b c = true -> deq a c = true.
Proof.
  intros (p & Hp & Hq)%deq_key (q & Hq' & Hr)%deq_key.
  apply deq_key. exists p. split; congruence.
Qed.

Lemma dlt_total a b :
  num a -> num b -> dlt a b = false -> dlt b a = false -> deq a b = true.
Proof.
  intros [p Hp]%num_key [q Hq]%num_key Hab Hba.
  apply deq_key. exists p. split; [done|].
  destruct (key_lt_total p q) as [H|[->|H]]; [|done|].
  - by apply (dlt_false_key _ _ _ _ Hp Hq Hab) in H.
  - by apply (dlt_false_key _ _ _ _ Hq Hp Hba) in H.
Qed.

Lemma dlt_deq_l a a' b : deq a a' = true -> dlt a b = dlt a' b.
Proof.
  intros (p & Hp & Hp')%deq_key.
  destruct (dlt a b) eqn:H1, (dlt a' b) eqn:H2; try reflexivity.
  - apply dlt_key in H1 as (p1 & q & Hp1 & Hq & H).
    assert (dlt a' b = true) by (apply dlt_key; exists p1, q; split_and!; congruence).
    congruence.
  - apply dlt_key in H2 as (p1 & q & Hp1 & Hq & H).
    assert (dlt a b = true) by (apply dlt_key; exists p1, q; split_and!; congruence).
    congruence.
Qed.

Lemma dlt_deq_r a b b' : deq b b' = true -> dlt a b = dlt a b'.
Proof.
  intros (q & Hq & Hq')%deq_key.
  destruct (dlt a b) eqn:H1, (dlt a b') eqn:H2; try reflexivity.
  - apply dlt_key in H1 as (p & q1 & Hp & Hq1 & H).
    assert (dlt a b' = true)
      by (apply dlt_key; exists p, q1; split_and!; congruence).
    congruence.
  - apply dlt_key in H2 as (p & q1 & Hp & Hq1 & H).
    assert (dlt a b = true)
      by (apply dlt_key; exists p, q1; split_and!; congruence).
    congruence.
Qed.

Lemma deq_not_dlt a b : deq a b = true -> dlt a b = false.
Proof. intros H. rewrite (dlt_deq_l _ _ _ H). apply dlt_irrefl. Qed.

Lemma dlt_not_deq a b : dlt a b = true -> deq a b = false.
Proof.
  intros H. destruct (deq a b) eqn:E; [|reflexivity].
  apply deq_not_dlt in E. congruence.
Qed.

Lemma dne_deq a b : dne a b = negb (deq a b).
Proof. reflexivity. Qed.

Lemma deq_nan_l a : deq NaN a = false.
Proof. reflexivity. Qed.

Lemma dlt_nan_r a : dlt a NaN = false.
Proof. by destruct a as [[]|[]| |[] ? ?]. Qed.

End DoubleFacts.

(** ** The binary search *)

Section LowerBoundFacts.

Context {T : Type} (less : T -> T -> bool).

Implicit Types (v : list T) (p : T -> bool).

Lemma half_lt (n : nat) : S n / 2 < S n.
Proof. apply Nat.Div0.div_lt_upper_bound; lia. Qed.

Lemma partition_point_le p v : partition_point p v <= length v.
Proof. induction v as [|x t IH]; simpl; [lia|]. destruct (p x); lia. Qed.

Lemma partition_point_below p v i x :
  i < partition_point p v -> v !! i = Some x -> p x = true.
Proof.
  revert i. induction v as [|y t IH]; intros i Hi Hx; simpl in *; [lia|].
  destruct (p y) eqn:Hy; [|lia].
  destruct i as [|i]; simpl in Hx; [congruence|].
  apply (IH i); [lia|done].
Qed.

(** A position [r] that splits [v] into elements that satisfy [p] and
    elements that do not is the partition point. *)
Lemma partition_point_unique p v r :
  r <= length v ->
  (forall i x, i < r -> v !! i = Some x -> p x = true) ->
  (forall i x, r <= i -> v !! i = Some x -> p x = false) ->
  partition_point p v = r.
Proof.
  revert r. induction v as [|y t IH]; intros r Hr Hlo Hhi; simpl in *; [lia|].
  destruct (p y) eqn:Hy.
  - destruct r as [|r].
    { assert (p y = false) by (apply (Hhi 0); [lia|done]). congruence. }
    f_equal. apply IH; [lia| |].
    + intros i x Hi Hx. apply (Hlo (S i)); [lia|done].
    + intros i x Hi Hx. apply (Hhi (S i)); [lia|done].
  - destruct r as [|r]; [done|].
    assert (p y = true) by (apply (Hlo 0); [lia|done]). congruence.
Qed.

Lemma lower_bound_loop_step fuel v first n value :
  lower_bound_loop less (S fuel) v first (S n) value =
  x ← v !! (first + S n / 2);
  if less x value
  then lower_bound_loop less fuel v (first + S n / 2 + 1)
         (S n - S n / 2 - 1) value
  else lower_bound_loop less fuel v first (S n / 2) value.
Proof. reflexivity. Qed.

(** The search always returns, inside the range it was given: the fuel
    [len] is enough and every element it reads exists. *)
Lemma lower_bound_loop_total fuel v first len value :
  len <= fuel -> first + len <= length v ->
  exists r, lower_bound_loop less fuel v first len value = Some r
            /\ first <= r <= first + len.
Proof.
  revert first len. induction fuel as [|fuel IH]; intros first len Hf Hr.
  - assert (len = 0) as -> by lia. exists first. simpl. split; [done|lia].
  - destruct len as [|n]; [exists first; simpl; split; [done|lia]|].
    pose proof (half_lt n) as Hh. rewrite lower_bound_loop_step.
    destruct (lookup_lt_is_Some_2 v (first + S n / 2)) as [x Hx]; [lia|].
    rewrite Hx. cbn [mbind option_bind]. destruct (less x value).
    + destruct (IH (first + S n / 2 + 1) (S n - S n / 2 - 1)) as (r & -> & ?);
        [lia|lia|]. exists r. split; [done|lia].
    + destruct (IH first (S n / 2)) as (r & -> & ?); [lia|lia|].
      exists r. split; [done|lia].
Qed.

Lemma lower_bound_total v value :
  exists r, lower_bound less v value = Some r /\ r <= length v.
Proof.
  destruct (lower_bound_loop_total (length v) v 0 (length v) value)
    as (r & Hr & ?); [lia|lia|].
  exists r. split; [done|lia].
Qed.

(** On a partitioned range the search returns the partition point. *)
Lemma lower_bound_loop_partitioned fuel v first len value :
  let p := fun x => less x value in
  partitioned p v ->
  len <= fuel -> first + len <= length v ->
  first <= partition_point p v <= first + len ->
  lower_bound_loop less fuel v first len value = Some (partition_point p v).
Proof.
  intros p Hp. revert first len.
  induction fuel as [|fuel IH]; intros first len Hf Hr Hpp.
  - assert (len = 0) as -> by lia. simpl. f_equal. lia.
  - destruct len as [|n]; [simpl; f_equal; lia|].
    pose proof (half_lt n) as Hh. rewrite lower_bound_loop_step.
    destruct (lookup_lt_is_Some_2 v (first + S n / 2)) as [x Hx]; [lia|].
    rewrite Hx. cbn [mbind option_bind]. destruct (less x value) eqn:Hlt.
    + apply IH; [lia|lia|].
      destruct (decide (partition_point p v <= first + S n / 2)) as [Hle|?];
        [|lia].
      pose proof (Hp _ _ Hle Hx) as Hfalse. unfold p in Hfalse. congruence.
    + apply IH; [lia|lia|].
      destruct (decide (first + S n / 2 < partition_point p v)) as [Hlt'|?];
        [|lia].
      pose proof (partition_point_below p _ _ _ Hlt' Hx) as Htrue.
      unfold p in Htrue. congruence.
Qed.

Lemma lower_bound_partitioned v value :
  partitioned (fun x => less x value) v ->
  lower_bound less v value = Some (partition_point (fun x => less x value) v).
Proof.
  intros Hp. apply lower_bound_loop_partitioned; [done|lia|lia|].
  pose proof (partition_point_le (fun x => less x value) v). lia.
Qed.

End LowerBoundFacts.

(** ** Sorted vectors: the search finds the rank *)

Section SortedFacts.

Implicit Types (s t : list double) (v u x y : double).

Lemma increasing_cons x t :
  increasing (x :: t) <-> Forall (lt_double x) t /\ increasing t.
Proof. apply StronglySorted_cons. Qed.

Lemma increasing_lookup s i j x y :
  increasing s -> i < j -> s !! i = Some x -> s !! j = Some y ->
  dlt x y = true.
Proof.
  intros Hs. revert i j. induction Hs as [|z t Ht IH Hz]; intros i j Hij Hx Hy.
  - by rewrite lookup_nil in Hx.
  - destruct j as [|j]; [lia|]. simpl in Hy. destruct i as [|i]; simpl in Hx.
    + injection Hx as ->. rewrite Forall_forall in Hz.
      apply Hz. by eapply list_elem_of_lookup_2.
    + apply (IH i j); [lia|done|done].
Qed.

Lemma increasing_no_duplicates s : increasing s -> no_duplicates s.
Proof.
  intros Hs i j x y Hx Hy Heq.
  destruct (Nat.lt_trichotomy i j) as [Hlt|[->|Hlt]]; [|done|].
  - pose proof (increasing_lookup _ _ _ _ _ Hs Hlt Hx Hy) as H.
    apply dlt_not_deq in H. congruence.
  - pose proof (increasing_lookup _ _ _ _ _ Hs Hlt Hy Hx) as H.
    apply dlt_not_deq in H. apply deq_sym in Heq. congruence.
Qed.

Lemma count_less_none s v :
  Forall (fun y => dlt y v = false) s -> count_less s v = 0.
Proof. induction 1 as [|y t Hy _ IH]; simpl; [done|]. by rewrite Hy, IH. Qed.

Lemma partition_point_all (p : double -> bool) s :
  Forall (fun y => p y = true) s -> partition_point p s = length s.
Proof. induction 1 as [|y t Hy _ IH]; simpl; [done|]. by rewrite Hy, IH. Qed.

Lemma partitioned_all (p : double -> bool) s :
  Forall (fun y => p y = true) s -> partitioned p s.
Proof.
  intros Hall i x Hi Hx. rewrite (partition_point_all p s Hall) in Hi.
  apply lookup_lt_Some in Hx. lia.
Qed.

(** After an element that is not less than [v], no element of an
    increasing vector is less than [v]. *)
Lemma increasing_not_less x t v :
  Forall (lt_double x) t -> dlt x v = false ->
  Forall (fun y => dlt y v = false) t.
Proof.
  intros Hx Hv. eapply Forall_impl; [exact Hx|]. intros y Hxy. cbv beta.
  destruct (dlt y v) eqn:Hyv; [|done].
  pose proof (dlt_trans _ _ _ Hxy Hyv). congruence.
Qed.

Lemma increasing_partitioned s v :
  increasing s -> partitioned (fun x => dlt x v) s.
Proof.
  induction 1 as [|x t Ht IH Hx]; intros i y Hi Hy.
  - by rewrite lookup_nil in Hy.
  - simpl in Hi. destruct (dlt x v) eqn:Hxv.
    + destruct i as [|i]; [lia|]. apply (IH i); [lia|done].
    + destruct i as [|i]; simpl in Hy; [congruence|].
      pose proof (increasing_not_less _ _ _ Hx Hxv) as Hall.
      rewrite Forall_forall in Hall. apply Hall.
      by eapply list_elem_of_lookup_2.
Qed.

Lemma increasing_count_less s v :
  increasing s -> partition_point (fun x => dlt x v) s = count_less s v.
Proof.
  induction 1 as [|x t Ht IH Hx]; simpl; [done|].
  destruct (dlt x v) eqn:Hxv; [by rewrite IH|].
  by rewrite (count_less_none t v (increasing_not_less _ _ _ Hx Hxv)).
Qed.

Lemma lower_bound_increasing s v :
  increasing s -> lower_bound dlt s v = Some (count_less s v).
Proof.
  intros Hs. rewrite <- (increasing_count_less s v Hs).
  apply lower_bound_partitioned, increasing_partitioned, Hs.
Qed.

(** The rank of a stored value is its position. *)
Lemma count_less_stored s i x v :
  increasing s -> s !! i = Some x -> deq x v = true -> count_less s v = i.
Proof.
  intros Hs. revert i. induction Hs as [|z t Ht IH Hz]; intros i Hx Heq.
  - by rewrite lookup_nil in Hx.
  - simpl. destruct i as [|i]; simpl in Hx.
    + injection Hx as ->. rewrite (deq_not_dlt _ _ Heq).
      rewrite (count_less_none t v); [done|].
      apply (increasing_not_less x); [done|]. by apply deq_not_dlt.
    + rewrite (IH i Hx Heq). rewrite Forall_forall in Hz.
      assert (dlt z x = true) as Hzx
        by (apply Hz; by eapply list_elem_of_lookup_2).
      rewrite (dlt_deq_r _ _ _ Heq) in Hzx. by rewrite Hzx.
Qed.

End SortedFacts.

(** ** The three operations on a partitioned vector *)

Section Operations.

Implicit Types (s t : list double) (v u x y : double).
Implicit Types (self : AnimationFrameOrder).

(** What [AddValue] does at the partition point is [insert_sorted]. *)
Lemma insert_sorted_at s v :
  let k := partition_point (fun x => dlt x v) s in
  (k = length s /\ insert_sorted v s = push_back s v)
  \/ (exists x, s !! k = Some x
        /\ insert_sorted v s =
           if dne x v then take k s ++ v :: drop k s else s).
Proof.
  induction s as [|z t IH]; simpl; [by left|].
  destruct (dlt z v) eqn:Hzv.
  - destruct IH as [[Hk ->]|(x & Hx & ->)].
    + left. split; [by rewrite Hk|done].
    + right. exists x. split; [done|]. simpl. by destruct (dne x v).
  - right. exists z. split; [done|]. simpl. by destruct (dne z v).
Qed.

(** What [RemoveValue] does at the partition point is [remove_lower]. *)
Lemma remove_lower_at s v :
  let k := partition_point (fun x => dlt x v) s in
  (k = length s /\ remove_lower v s = s)
  \/ (k < length s /\ remove_lower v s = take k s ++ drop (S k) s).
Proof.
  induction s as [|z t IH]; simpl; [by left|].
  destruct (dlt z v) eqn:Hzv.
  - destruct IH as [[Hk ->]|[Hk ->]].
    + left. split; [by rewrite Hk|done].
    + right. split; [lia|done].
  - right. split; [lia|]. simpl. by rewrite drop_0.
Qed.

Lemma AddValue_partitioned self v :
  partitioned (fun x => dlt x v) (values_ self) ->
  AddValue self v
  = Some {| values_ := insert_sorted v (values_ self) |}.
Proof.
  intros Hp. destruct self as [s]. unfold AddValue. simpl in *.
  rewrite (lower_bound_partitioned dlt s v Hp). cbn [mbind option_bind].
  pose proof (partition_point_le (fun x => dlt x v) s) as Hle.
  destruct (insert_sorted_at s v) as [[Hk ->]|(x & Hx & ->)].
  - by rewrite decide_True.
  - rewrite decide_False by (apply lookup_lt_Some in Hx; lia).
    rewrite Hx. cbn [mbind option_bind]. destruct (dne x v); [|done].
    unfold vec_insert. by rewrite decide_True.
Qed.

Lemma RemoveValue_partitioned self v :
  partitioned (fun x => dlt x v) (values_ self) ->
  RemoveValue self v
  = Some {| values_ := remove_lower v (values_ self) |}.
Proof.
  intros Hp. destruct self as [s]. unfold RemoveValue. simpl in *.
  rewrite (lower_bound_partitioned dlt s v Hp). cbn [mbind option_bind].
  destruct (remove_lower_at s v) as [[Hk ->]|[Hk ->]].
  - rewrite decide_False; [done|]. intros Hne. by apply Hne.
  - rewrite decide_True by lia. unfold vec_erase.
    by rewrite decide_True.
Qed.

Lemma GetFrameForValue_partitioned w self v :
  partitioned (fun x => dlt x v) (values_ self) ->
  GetFrameForValue w self v
  = let k := partition_point (fun x => dlt x v) (values_ self) in
    Some (if decide (k <> length (values_ self))
          then to_size_t w (Z.of_nat k - 0) else to_size_t w (-1)).
Proof.
  intros Hp. unfold GetFrameForValue.
  rewrite (lower_bound_partitioned dlt _ v Hp). cbn [mbind option_bind].
  by case_decide.
Qed.

(** *** Preservation of the invariant *)

Lemma Forall_insert_sorted (P : double -> Prop) v s :
  P v -> Forall P s -> Forall P (insert_sorted v s).
Proof.
  intros Hv. induction 1 as [|x t Hx Ht IH]; simpl; [by constructor|].
  destruct (dlt x v); [by constructor|].
  destruct (dne x v); by repeat constructor.
Qed.

Lemma Forall_remove_lower (P : double -> Prop) v s :
  Forall P s -> Forall P (remove_lower v s).
Proof.
  induction 1 as [|x t Hx Ht IH]; simpl; [by constructor|].
  destruct (dlt x v); [by constructor|done].
Qed.

Lemma increasing_insert_sorted v s :
  num v -> Forall num s -> increasing s -> increasing (insert_sorted v s).
Proof.
  intros Hv Hn Hs. induction Hs as [|x t Ht IH Hx]; simpl.
  - apply increasing_cons. split; constructor.
  - apply Forall_cons in Hn as [Hnx Hnt].
    destruct (dlt x v) eqn:Hxv.
    + apply increasing_cons. split; [|by apply IH].
      by apply Forall_insert_sorted.
    + destruct (dne x v) eqn:Hne; [|by apply increasing_cons].
      assert (dlt v x = true) as Hvx.
      { destruct (dlt v x) eqn:E; [done|].
        pose proof (dlt_total _ _ Hnx Hv Hxv E) as Heq.
        rewrite dne_deq, Heq in Hne. discriminate. }
      apply increasing_cons. split; [|by apply increasing_cons].
      constructor; [done|].
      eapply Forall_impl; [exact Hx|]. intros y Hxy.
      by apply (dlt_trans _ x).
Qed.

Lemma increasing_remove_lower v s :
  increasing s -> increasing (remove_lower v s).
Proof.
  induction 1 as [|x t Ht IH Hx]; simpl; [constructor|].
  destruct (dlt x v); [|done].
  apply increasing_cons. split; [by apply Forall_remove_lower|done].
Qed.

Lemma Inv_empty : Inv empty.
Proof. split; constructor. Qed.

Lemma AddValue_Inv self v :
  Inv self -> num v ->
  exists self', AddValue self v = Some self' /\ Inv self'
    /\ values_ self' = insert_sorted v (values_ self).
Proof.
  intros [Hn Hs] Hv. eexists. split.
  - by apply AddValue_partitioned, increasing_partitioned.
  - split; [|done]. split; simpl.
    + by apply Forall_insert_sorted.
    + by apply increasing_insert_sorted.
Qed.

Lemma RemoveValue_Inv self v :
  Inv self ->
  exists self', RemoveValue self v = Some self' /\ Inv self'
    /\ values_ self' = remove_lower v (values_ self).
Proof.
  intros [Hn Hs]. eexists. split.
  - by apply RemoveValue_partitioned, increasing_partitioned.
  - split; [|done]. split; simpl.
    + by apply Forall_remove_lower.
    + by apply increasing_remove_lower.
Qed.

Lemma AddValues_Inv orders : forall self,
  Inv self -> Forall num orders ->
  exists self', AddValues self orders = Some self' /\ Inv self'
    /\ values_ self'
       = foldl (fun s x => insert_sorted x s) (values_ self) orders.
Proof.
  induction orders as [|v rest IH]; intros self Hinv Hn; simpl.
  - by exists self.
  - apply Forall_cons in Hn as [Hv Hrest].
    destruct (AddValue_Inv self v Hinv Hv) as (s1 & -> & Hinv1 & Hv1).
    cbn [mbind option_bind].
    destruct (IH s1 Hinv1 Hrest) as (s2 & -> & Hinv2 & Hv2).
    exists s2. split; [done|]. split; [done|]. by rewrite Hv2, Hv1.
Qed.

End Operations.

(** ** Stored values *)

Section StoredFacts.

Implicit Types (s t : list double) (v u x y : double).
Implicit Types (self : AnimationFrameOrder).

Lemma insert_sorted_stored s v x :
  increasing s -> x ∈ s -> deq x v = true -> insert_sorted v s = s.
Proof.
  intros Hs. induction Hs as [|z t Ht IH Hz]; intros Hin Heq.
  - by apply elem_of_nil in Hin.
  - simpl. apply elem_of_cons in Hin as [->|Hin].
    + by rewrite (deq_not_dlt _ _ Heq), dne_deq, Heq.
    + rewrite Forall_forall in Hz. pose proof (Hz x Hin) as Hzx.
      unfold lt_double in Hzx. rewrite (dlt_deq_r _ _ _ Heq) in Hzx.
      rewrite Hzx. f_equal. by apply IH.
Qed.

Lemma elem_of_insert_sorted s v x : x ∈ s -> x ∈ insert_sorted v s.
Proof.
  induction s as [|z t IH]; intros Hin; simpl.
  - by apply elem_of_nil in Hin.
  - destruct (dlt z v).
    + apply elem_of_cons in Hin as [->|Hin]; [left|right; by apply IH].
    + destruct (dne z v); [by right|done].
Qed.

Lemma elem_of_remove_lower s v x :
  x ∈ s -> dlt x v = true -> x ∈ remove_lower v s.
Proof.
  induction s as [|z t IH]; intros Hin Hxv; simpl.
  - by apply elem_of_nil in Hin.
  - apply elem_of_cons in Hin as [->|Hin].
    + rewrite Hxv. left.
    + destruct (dlt z v); [right; by apply IH|done].
Qed.

Lemma count_less_insert_sorted s u v :
  dlt u v = false -> count_less (insert_sorted u s) v = count_less s v.
Proof.
  intros Huv. induction s as [|z t IH]; simpl; [by rewrite Huv|].
  destruct (dlt z u); simpl; [by rewrite IH|].
  destruct (dne z u); simpl; [by rewrite Huv|done].
Qed.

Lemma count_less_remove_lower s u v :
  dlt v u = true -> count_less (remove_lower u s) v = count_less s v.
Proof.
  intros Hvu. induction s as [|z t IH]; simpl; [done|].
  destruct (dlt z u) eqn:Hzu; simpl; [by rewrite IH|].
  destruct (dlt z v) eqn:Hzv; [|done].
  pose proof (dlt_trans _ _ _ Hzv Hvu). congruence.
Qed.

Lemma length_insert_sorted_fresh s v :
  (forall x, x ∈ s -> deq x v = false) ->
  length (insert_sorted v s) = S (length s).
Proof.
  induction s as [|z t IH]; intros Hfresh; simpl; [done|].
  destruct (dlt z v); simpl.
  - rewrite IH; [done|]. intros x Hx. apply Hfresh. by right.
  - rewrite dne_deq, (Hfresh z) by left. done.
Qed.

(** Removing a value right after its insertion restores the vector. *)
Lemma remove_lower_insert_sorted s v :
  (forall x, x ∈ s -> deq x v = false) ->
  remove_lower v (insert_sorted v s) = s.
Proof.
  induction s as [|z t IH]; intros Hfresh; simpl.
  - by rewrite dlt_irrefl.
  - destruct (dlt z v) eqn:Hzv; simpl.
    + rewrite Hzv. f_equal. apply IH. intros x Hx. apply Hfresh. by right.
    + rewrite dne_deq, (Hfresh z) by left. simpl. by rewrite dlt_irrefl.
Qed.

(** The frame of a stored value is the number of smaller stored values,
    before its conversion to [size_t]. *)
Lemma GetFrameForValue_stored w self v :
  Inv self -> stored self v ->
  GetFrameForValue w self v
  = Some (to_size_t w (Z.of_nat (count_less (values_ self) v) - 0))
  /\ count_less (values_ self) v < length (values_ self)
  /\ stored_at self (count_less (values_ self) v) v.
Proof.
  intros [Hn Hs] (x & Hin & Heq).
  apply list_elem_of_lookup in Hin as [i Hi].
  pose proof (count_less_stored _ _ _ _ Hs Hi Heq) as Hc.
  pose proof (lookup_lt_Some _ _ _ Hi) as Hlt.
  rewrite GetFrameForValue_partitioned by by apply increasing_partitioned.
  cbv zeta. rewrite (increasing_count_less _ v Hs), Hc.
  split; [|split; [done|by exists x]].
  rewrite decide_True by lia. done.
Qed.

Lemma to_size_t_small w (n : nat) :
  (Z.of_nat n <= SIZE_MAX w)%Z -> to_size_t w (Z.of_nat n - 0) = Z.of_nat n.
Proof.
  unfold SIZE_MAX, to_size_t. intros H. rewrite Z.sub_0_r.
  apply Z.mod_small. lia.
Qed.

Lemma to_size_t_minus_one w : to_size_t w (-1) = SIZE_MAX w.
Proof.
  unfold SIZE_MAX, to_size_t.
  destruct (Z.lt_ge_cases w 0) as [Hneg|Hpos].
  - rewrite (Z.pow_neg_r 2 w Hneg). by rewrite Z.mod_0_r.
  - pose proof (Z.pow_pos_nonneg 2 w ltac:(lia) Hpos) as Hp.
    symmetry. apply (Z.mod_unique (-1) (2 ^ w) (-1)); lia.
Qed.

End StoredFacts.

(** ** Insertions in either order *)

Section Commutation.

Implicit Types (s t : list double) (v u x y a b : double).

Lemma sim_refl s : Forall num s -> sim s s.
Proof. induction 1; constructor; [by apply deq_refl|done]. Qed.

Lemma sim_trans s t r : sim s t -> sim t r -> sim s r.
Proof.
  intros H. revert r. induction H as [|x y s t Hxy _ IH]; intros r Hr.
  - inversion Hr. constructor.
  - inversion Hr as [|? z ? r' Hyz Htr]; subst.
    constructor; [by apply (deq_trans _ y)|by apply IH].
Qed.

Lemma compare_cases a b :
  num a -> num b ->
  (dlt a b = true /\ dlt b a = false /\ deq a b = false /\ deq b a = false)
  \/ (dlt a b = false /\ dlt b a = false /\ deq a b = true /\ deq b a = true)
  \/ (dlt a b = false /\ dlt b a = true /\ deq a b = false /\ deq b a = false).
Proof.
  intros Ha Hb. destruct (dlt a b) eqn:Hab.
  - left. pose proof (dlt_not_deq _ _ Hab) as Hne. split_and!; try done.
    + by apply dlt_asym.
    + destruct (deq b a) eqn:E; [|done]. apply deq_sym in E. congruence.
  - destruct (dlt b a) eqn:Hba.
    + right. right. pose proof (dlt_not_deq _ _ Hba) as Hne.
      split_and!; try done.
      destruct (deq a b) eqn:E; [|done]. apply deq_sym in E. congruence.
    + right. left. pose proof (dlt_total _ _ Ha Hb Hab Hba) as Heq.
      split_and!; try done. by apply deq_sym.
Qed.

Lemma deq_deq_l a a' b : deq a a' = true -> deq a b = deq a' b.
Proof.
  intros H. destruct (deq a b) eqn:H1, (deq a' b) eqn:H2; try done.
  - pose proof (deq_trans _ _ _ (deq_sym _ _ H) H1). congruence.
  - pose proof (deq_trans _ _ _ H H2). congruence.
Qed.

Lemma deq_eq_or_zero a b :
  deq a b = true ->
  a = b \/ ((a = pos_zero \/ a = neg_zero) /\ (b = pos_zero \/ b = neg_zero)).
Proof.
  intros (p & Hp & Hq)%deq_key.
  destruct a as [[]|[]| |[] m1 e1], b as [[]|[]| |[] m2 e2];
    simpl in Hp, Hq; try congruence;
    try (right; split; [(by left) || (by right)|(by left) || (by right)]);
    try (by left).
  - left. injection Hp as <-. injection Hq as He Hm.
    assert (e1 = e2) as -> by lia. assert (m1 = m2) as -> by lia. done.
  - left. injection Hp as <-. injection Hq as He Hm. by subst.
Qed.

(** New order facts from two known ones. *)
Local Ltac order_fact H :=
  let P := type of H in
  lazymatch goal with
  | _ : P |- _ => fail
  | _ => pose proof H
  end.

Local Ltac order_saturate :=
  repeat match goal with
  | H1 : dlt ?a ?b = true, H2 : dlt ?b ?c = true |- _ =>
      order_fact (dlt_trans _ _ _ H1 H2)
  | H1 : deq ?a ?b = true, H2 : dlt ?a ?c = true |- _ =>
      order_fact (eq_trans (eq_sym (dlt_deq_l _ _ c H1)) H2)
  | H1 : deq ?b ?c = true, H2 : dlt ?a ?b = true |- _ =>
      order_fact (eq_trans (eq_sym (dlt_deq_r a _ _ H1)) H2)
  | H1 : deq ?a ?b = true, H2 : deq ?b ?c = true |- _ =>
      order_fact (deq_trans _ _ _ H1 H2)
  end.

Local Ltac order_contra :=
  order_saturate;
  repeat match goal with
  | H : dlt ?a ?a = true |- _ => rewrite dlt_irrefl in H
  end;
  congruence.

Local Ltac order_rewrite :=
  repeat (progress (cbn [insert_sorted negb]; unfold dne;
    repeat match goal with
    | H : dlt ?a ?b = _ |- context [dlt ?a ?b] => rewrite H
    | H : deq ?a ?b = _ |- context [deq ?a ?b] => rewrite H
    end)).

Local Ltac num_list :=
  repeat first
    [ assumption
    | apply Forall_nil_2
    | apply Forall_cons; split
    | apply Forall_insert_sorted ].

Lemma insert_sorted_swap s a b :
  Forall num s -> num a -> num b ->
  sim (insert_sorted a (insert_sorted b s))
      (insert_sorted b (insert_sorted a s))
  /\ ((deq a b = true -> a = b) ->
      insert_sorted a (insert_sorted b s)
      = insert_sorted b (insert_sorted a s)).
Proof.
  intros Hs Ha Hb.
  induction Hs as [|x t Hx Ht [IH1 IH2]].
  - split; [|intros Hz];
      destruct (compare_cases a b Ha Hb)
        as [(?&?&?&?)|[(?&?&?&?)|(?&?&?&?)]]; order_rewrite;
      try reflexivity; try (by rewrite Hz);
      (apply sim_refl; num_list) || (by repeat constructor).
  - split; [|intros Hz; specialize (IH2 Hz)];
      destruct (compare_cases x a Hx Ha)
        as [(?&?&?&?)|[(?&?&?&?)|(?&?&?&?)]];
      destruct (compare_cases x b Hx Hb)
        as [(?&?&?&?)|[(?&?&?&?)|(?&?&?&?)]];
      destruct (compare_cases a b Ha Hb)
        as [(?&?&?&?)|[(?&?&?&?)|(?&?&?&?)]];
      try (exfalso; order_contra); order_rewrite;
      try reflexivity; try (by rewrite IH2); try (by rewrite Hz).
    all: repeat first
      [ assumption
      | solve [apply sim_refl; num_list]
      | constructor; [first [assumption | by apply deq_refl]|] ].
Qed.

Lemma insert_sorted_sim a s t :
  num a -> sim s t -> sim (insert_sorted a s) (insert_sorted a t).
Proof.
  intros Ha. induction 1 as [|x y s t Hxy Hst IH]; simpl.
  - constructor; [by apply deq_refl|constructor].
  - unfold dne.
    rewrite <- (dlt_deq_l _ _ a Hxy), <- (deq_deq_l _ _ a Hxy).
    destruct (dlt x a); [by constructor|].
    destruct (deq x a); simpl; [by constructor|].
    constructor; [by apply deq_refl|by constructor].
Qed.

Lemma Forall_num_foldl l : forall s,
  Forall num s -> Forall num l ->
  Forall num (foldl (fun s x => insert_sorted x s) s l).
Proof.
  induction l as [|a l IH]; intros s Hs Hl; simpl; [done|].
  apply Forall_cons in Hl as [Ha Hl].
  apply IH; [by apply Forall_insert_sorted|done].
Qed.

Lemma foldl_insert_sorted_sim l : forall s t,
  Forall num l -> sim s t ->
  sim (foldl (fun s x => insert_sorted x s) s l)
      (foldl (fun s x => insert_sorted x s) t l).
Proof.
  induction l as [|a l IH]; intros s t Hl Hst; simpl; [done|].
  apply Forall_cons in Hl as [Ha Hl].
  apply IH; [done|by apply insert_sorted_sim].
Qed.

(** Rearranging the inserted numbers changes the result at most in the
    sign of a zero. *)
Lemma foldl_insert_sorted_perm l1 l2 :
  l1 ≡ₚ l2 -> forall s,
  Forall num s -> Forall num l1 ->
  sim (foldl (fun s x => insert_sorted x s) s l1)
      (foldl (fun s x => insert_sorted x s) s l2).
Proof.
  induction 1 as [|a l1 l2 Hp IH|a b l|l1 l2 l3 Hp1 IH1 Hp2 IH2];
    intros s Hs Hl; simpl.
  - by apply sim_refl.
  - apply Forall_cons in Hl as [Ha Hl].
    apply IH; [by apply Forall_insert_sorted|done].
  - apply Forall_cons in Hl as [Hb Hl]. apply Forall_cons in Hl as [Ha Hl].
    apply foldl_insert_sorted_sim; [done|].
    by apply insert_sorted_swap.
  - apply (sim_trans _ (foldl (fun s x => insert_sorted x s) s l2)).
    + by apply IH1.
    + apply IH2; [done|]. by rewrite <- Hp1.
Qed.

Lemma one_zero_eq l a b :
  one_zero l -> a ∈ l -> b ∈ l -> deq a b = true -> a = b.
Proof.
  intros Hz Ha Hb [Heq|[[-> | ->] [-> | ->]]]%deq_eq_or_zero; try done.
  - destruct Hz. by split.
  - destruct Hz. by split.
Qed.

(** Without both zeros among the inserted numbers the result is the
    same vector. *)
Lemma foldl_insert_sorted_perm_eq l1 l2 :
  l1 ≡ₚ l2 -> forall s,
  Forall num s -> Forall num l1 -> one_zero l1 ->
  foldl (fun s x => insert_sorted x s) s l1
  = foldl (fun s x => insert_sorted x s) s l2.
Proof.
  induction 1 as [|a l1 l2 Hp IH|a b l|l1 l2 l3 Hp1 IH1 Hp2 IH2];
    intros s Hs Hl Hz; simpl.
  - done.
  - apply Forall_cons in Hl as [Ha Hl].
    apply IH; [by apply Forall_insert_sorted|done|].
    intros [H1 H2]. apply Hz. split; by right.
  - apply Forall_cons in Hl as [Hb Hl]. apply Forall_cons in Hl as [Ha Hl].
    f_equal. apply insert_sorted_swap; [done..|].
    apply (one_zero_eq (b :: a :: l)); [done| |].
    + right. left.
    + left.
  - rewrite IH1 by done. apply IH2; [done|by rewrite <- Hp1|].
    unfold one_zero. by rewrite <- Hp1.
Qed.

End Commutation.

(** ** The invariant describes the reachable objects *)

Section Reachable.

Implicit Types (s t : list double) (v : double).
Implicit Types (self : AnimationFrameOrder).

Lemma reachable_Inv self : reachable self -> Inv self.
Proof.
  induction 1 as [|self v self' _ IH Hv Hadd|self v self' _ IH Hrem].
  - apply Inv_empty.
  - destruct (AddValue_Inv self v IH Hv) as (s1 & Hs1 & Hinv & _).
    congruence.
  - destruct (RemoveValue_Inv self v IH) as (s1 & Hs1 & Hinv & _).
    congruence.
Qed.

Lemma reachable_AddValues orders : forall self self',
  reachable self -> Forall num orders ->
  AddValues self orders = Some self' -> reachable self'.
Proof.
  induction orders as [|v rest IH]; intros self self' Hr Hn Hrun.
  - simpl in Hrun. congruence.
  - apply Forall_cons in Hn as [Hv Hn]. simpl in Hrun.
    destruct (AddValue self v) as [s1|] eqn:Hadd; [|discriminate].
    cbn [mbind option_bind] in Hrun.
    apply (IH s1); [|done|done]. by apply (reachable_AddValue self v).
Qed.

Lemma insert_sorted_above s v :
  Forall (fun x => lt_double x v) s -> insert_sorted v s = s ++ [v].
Proof.
  induction 1 as [|x t Hx _ IH]; simpl; [done|]. by rewrite Hx, IH.
Qed.

Lemma foldl_insert_sorted_increasing t : forall s,
  increasing (s ++ t) ->
  foldl (fun s x => insert_sorted x s) s t = s ++ t.
Proof.
  induction t as [|v t IH]; intros s Hs; simpl.
  - by rewrite app_nil_r.
  - rewrite insert_sorted_above.
    + rewrite IH; by rewrite <- app_assoc.
    + apply StronglySorted_app in Hs as (Hall & _ & _).
      apply Forall_forall. intros x Hx. apply Hall; [done|left].
Qed.

(** Every object that satisfies the invariant is built from the empty
    one by inserting its values. *)
Lemma Inv_reachable self : Inv self -> reachable self.
Proof.
  intros [Hn Hs].
  destruct (AddValues_Inv (values_ self) empty Inv_empty Hn)
    as (self' & Hrun & _ & Hvals).
  apply (reachable_AddValues (values_ self) empty);
    [constructor|done|].
  rewrite Hrun. f_equal. destruct self as [s], self' as [s'].
  simpl in *. f_equal. rewrite Hvals.
  by apply (foldl_insert_sorted_increasing s []).
Qed.

End Reachable.

(** ** The properties of the index *)

Section Claims.

Implicit Types (s t : list double) (v u x y : double).
Implicit Types (self : AnimationFrameOrder) (w : Z).

Lemma GetFrameForValue_count_less w self v :
  Inv self -> size_ok w self -> stored self v ->
  GetFrameForValue w self v = Some (Z.of_nat (count_less (values_ self) v)).
Proof.
  intros Hinv Hsz Hst.
  destruct (GetFrameForValue_stored w self v Hinv Hst) as (-> & Hlt & _).
  f_equal. apply to_size_t_small. unfold size_ok in Hsz. lia.
Qed.

(** Below a stored value, an absent value gets the frame of the first
    stored value above it. *)
Lemma GetFrameForValue_below w self v x :
  Inv self -> size_ok w self -> x ∈ values_ self -> dlt v x = true ->
  GetFrameForValue w self v = Some (Z.of_nat (count_less (values_ self) v))
  /\ valid_rank self (Z.of_nat (count_less (values_ self) v)).
Proof.
  intros [Hn Hs] Hsz Hin Hvx.
  apply list_elem_of_lookup in Hin as [i Hi].
  pose proof (lookup_lt_Some _ _ _ Hi) as Hlt.
  assert (count_less (values_ self) v <= i) as Hle.
  { rewrite <- (increasing_count_less _ v Hs).
    destruct (decide (i < partition_point (fun y => dlt y v) (values_ self)))
      as [Hi'|?]; [|lia].
    pose proof (partition_point_below _ _ _ _ Hi' Hi) as Hxv.
    cbv beta in Hxv. rewrite (dlt_asym _ _ Hvx) in Hxv. discriminate. }
  rewrite GetFrameForValue_partitioned by by apply increasing_partitioned.
  cbv zeta. rewrite (increasing_count_less _ v Hs).
  rewrite decide_True by lia. split.
  - f_equal. apply to_size_t_small. unfold size_ok in Hsz. lia.
  - eexists. split; [reflexivity|lia].
Qed.

Lemma partitioned_NaN s : partitioned (fun x => dlt x NaN) s.
Proof. intros i x _ _. apply dlt_nan_r. Qed.

(** [RemoveValue] right after [AddValue] of an absent value restores the
    object. *)
Lemma AddValue_RemoveValue_restores self v :
  Inv self -> ~ stored self v ->
  exists self1,
    AddValue self v = Some self1 /\ RemoveValue self1 v = Some self.
Proof.
  intros [Hn Hs] Hns. eexists. split.
  - by apply AddValue_partitioned, increasing_partitioned.
  - rewrite RemoveValue_partitioned; simpl.
    + rewrite remove_lower_insert_sorted; [by destruct self|].
      intros x Hx. destruct (deq x v) eqn:E; [|done].
      destruct Hns. by exists x.
    + destruct (is_nan v) eqn:Hv.
      * destruct v; try discriminate. apply partitioned_NaN.
      * by apply increasing_partitioned, increasing_insert_sorted.
Qed.

Lemma Inv_index_1_3 : Inv index_1_3.
Proof. split; simpl; repeat constructor. Qed.

Lemma Inv_index_1_2_3 : Inv index_1_2_3.
Proof. split; simpl; repeat constructor. Qed.

Lemma not_stored_2 : ~ stored index_1_3 (of_Z 2).
Proof.
  intros (x & Hin & Heq). simpl in Hin.
  apply elem_of_cons in Hin as [->|Hin]; [discriminate|].
  apply elem_of_cons in Hin as [->|Hin]; [discriminate|].
  by apply elem_of_nil in Hin.
Qed.

(** C1: on the index built by [AddValue(1)] and [AddValue(3)], the value 2
    is not stored, yet [GetFrameForValue(2)] returns frame 1 (the frame of
    3), not the converted [-1]. *)
Theorem GetFrameForValue_absent_below_stored :
  exists self,
    AddValues empty [of_Z 1; of_Z 3] = Some self
    /\ Inv self
    /\ ~ stored self (of_Z 2)
    /\ GetFrameForValue 64 self (of_Z 2) = Some 1%Z
    /\ to_size_t 64 (-1) <> 1%Z.
Proof.
  exists index_1_3.
  split; [reflexivity|]. split; [exact Inv_index_1_3|].
  split; [exact not_stored_2|]. split; [reflexivity|]. by vm_compute.
Qed.

(** C2: on the index built by [AddValue(1)] and [AddValue(3)], the value 2
    is not stored, yet [RemoveValue(2)] erases 3. *)
Theorem RemoveValue_absent_erases_next :
  exists self,
    AddValues empty [of_Z 1; of_Z 3] = Some self
    /\ Inv self
    /\ ~ stored self (of_Z 2)
    /\ RemoveValue self (of_Z 2) = Some {| values_ := [of_Z 1] |}.
Proof.
  exists index_1_3.
  split; [reflexivity|]. split; [exact Inv_index_1_3|].
  split; [exact not_stored_2|reflexivity].
Qed.

(** C3, as stated, fails: two [AddValue(NaN)] calls on the empty index store
    NaN twice; the sequence is not increasing and holds a value twice. *)
Lemma AddValues_NaN_not_increasing :
  exists self,
    AddValues empty [NaN; NaN] = Some self
    /\ ~ increasing (values_ self)
    /\ ~ NoDup (values_ self).
Proof.
  exists {| values_ := [NaN; NaN] |}. split; [reflexivity|]. simpl. split.
  - intros [Hall _]%increasing_cons.
    apply Forall_cons in Hall as [Hlt _]. discriminate.
  - intros [Hnin _]%NoDup_cons. apply Hnin. left.
Qed.

(** C3, amended: from the empty index, any run of [AddValue] calls with
    values that are not NaN returns, and the stored sequence is strictly
    increasing and has no two values that compare equal. *)
Theorem AddValues_increasing (orders : list double) :
  Forall num orders ->
  exists self,
    AddValues empty orders = Some self
    /\ increasing (values_ self)
    /\ no_duplicates (values_ self).
Proof.
  intros Hn.
  destruct (AddValues_Inv orders empty Inv_empty Hn)
    as (self & Hrun & [_ Hinc] & _).
  exists self. split; [done|]. split; [done|].
  by apply increasing_no_duplicates.
Qed.

Lemma AddValues_increasing_witness :
  Forall num [of_Z 3; of_Z 1; of_Z 2]
  /\ exists self,
       AddValues empty [of_Z 3; of_Z 1; of_Z 2] = Some self
       /\ increasing (values_ self)
       /\ no_duplicates (values_ self).
Proof.
  assert (Forall num [of_Z 3; of_Z 1; of_Z 2]) as H
    by (repeat constructor).
  split; [exact H|exact (AddValues_increasing _ H)].
Defined.

(** C4, as stated, fails: [AddValue] of 0, 1 and NaN on the empty index
    stores NaN, 0, 1 (NaN goes to the front, nothing being less than it);
    1 is stored and one stored value is less than it, yet the search on the
    unordered vector gives it frame 2. *)
Lemma GetFrameForValue_NaN_not_rank :
  exists self,
    AddValues empty [of_Z 0; of_Z 1; NaN] = Some self
    /\ values_ self = [NaN; of_Z 0; of_Z 1]
    /\ stored self (of_Z 1)
    /\ count_less (values_ self) (of_Z 1) = 1
    /\ GetFrameForValue 64 self (of_Z 1) = Some 2%Z.
Proof.
  exists {| values_ := [NaN; of_Z 0; of_Z 1] |}.
  split_and!; try reflexivity.
  exists (of_Z 1). split; [|reflexivity]. simpl. set_solver.
Qed.

(** C4, amended: in an index that holds no NaN and is strictly increasing
    (every index built without inserting NaN), of a size that [size_t]
    holds, the frame of a stored value is the number of stored values
    strictly less than it; after inserting 3, 1, 2 into the empty index
    the frames of 1, 2, 3 are 0, 1, 2. *)
Theorem GetFrameForValue_rank w self v :
  Inv self -> size_ok w self -> stored self v ->
  GetFrameForValue w self v = Some (Z.of_nat (count_less (values_ self) v))
  /\ exists self',
       AddValues empty [of_Z 3; of_Z 1; of_Z 2] = Some self'
       /\ (size_ok w self' ->
           GetFrameForValue w self' (of_Z 1) = Some 0%Z
           /\ GetFrameForValue w self' (of_Z 2) = Some 1%Z
           /\ GetFrameForValue w self' (of_Z 3) = Some 2%Z).
Proof.
  intros Hinv Hsz Hst. split; [by apply GetFrameForValue_count_less|].
  exists index_1_2_3. split; [reflexivity|].
  intros Hsz'.
  pose proof Inv_index_1_2_3 as Hinv'.
  split_and!.
  - rewrite GetFrameForValue_count_less; [done|done|done|].
    exists (of_Z 1). split; [left|reflexivity].
  - rewrite GetFrameForValue_count_less; [done|done|done|].
    exists (of_Z 2). split; [right; left|reflexivity].
  - rewrite GetFrameForValue_count_less; [done|done|done|].
    exists (of_Z 3). split; [right; right; left|reflexivity].
Qed.

Lemma GetFrameForValue_rank_witness :
  Inv index_1_2_3 /\ size_ok 64 index_1_2_3 /\ stored index_1_2_3 (of_Z 2)
  /\ GetFrameForValue 64 index_1_2_3 (of_Z 2) = Some 1%Z.
Proof.
  pose proof Inv_index_1_2_3 as Hinv.
  assert (size_ok 64 index_1_2_3) as Hsz by (by vm_compute).
  assert (stored index_1_2_3 (of_Z 2)) as Hst
    by (exists (of_Z 2); split; [right; left|reflexivity]).
  split_and!; [done..|].
  exact (proj1 (GetFrameForValue_rank 64 index_1_2_3 (of_Z 2) Hinv Hsz Hst)).
Defined.

(** C5, as stated, fails: [AddValue] of 1 and NaN on the empty index
    stores NaN, 1; a further [AddValue(1)] finds NaN at the position the
    search returns, inserts 1 once more in front of it, and the number of
    frames grows from 2 to 3. *)
Lemma AddValue_stored_NaN_inserts :
  exists self self',
    AddValues empty [of_Z 1; NaN] = Some self
    /\ values_ self = [NaN; of_Z 1]
    /\ stored self (of_Z 1)
    /\ AddValue self (of_Z 1) = Some self'
    /\ values_ self' = [of_Z 1; NaN; of_Z 1]
    /\ GetNumberOfFrames 64 self = 2%Z
    /\ GetNumberOfFrames 64 self' = 3%Z.
Proof.
  exists {| values_ := [NaN; of_Z 1] |},
         {| values_ := [of_Z 1; NaN; of_Z 1] |}.
  split_and!; try reflexivity.
  exists (of_Z 1). split; [|reflexivity]. simpl. set_solver.
Qed.

(** C5, amended: in an index that holds no NaN and is strictly increasing
    (every index built without inserting NaN), [AddValue] of a stored value
    returns the object unchanged, so the number of frames is unchanged. *)
Theorem AddValue_stored_noop w self v :
  Inv self -> stored self v ->
  exists self',
    AddValue self v = Some self'
    /\ self' = self
    /\ GetNumberOfFrames w self' = GetNumberOfFrames w self.
Proof.
  intros [Hn Hs] (x & Hin & Heq). exists self.
  split; [|done].
  rewrite AddValue_partitioned by by apply increasing_partitioned.
  rewrite (insert_sorted_stored _ v x Hs Hin Heq). by destruct self.
Qed.

Lemma AddValue_stored_noop_witness :
  Inv index_1_2_3 /\ stored index_1_2_3 (of_Z 2)
  /\ exists self',
       AddValue index_1_2_3 (of_Z 2) = Some self'
       /\ self' = index_1_2_3
       /\ GetNumberOfFrames 64 self' = GetNumberOfFrames 64 index_1_2_3.
Proof.
  pose proof Inv_index_1_2_3 as Hinv.
  assert (stored index_1_2_3 (of_Z 2)) as Hst
    by (exists (of_Z 2); split; [right; left|reflexivity]).
  split_and!; [done..|].
  exact (AddValue_stored_noop 64 index_1_2_3 (of_Z 2) Hinv Hst).
Defined.

(** C6: on the index holding 1 and 3, [AddValue(2)] then [RemoveValue(2)]
    restores the object and its number of frames, but [GetFrameForValue(2)]
    then returns frame 1 (the frame of 3), not the converted [-1]. *)
Theorem AddValue_RemoveValue_rank_not_sentinel :
  exists self self1 self2,
    AddValues empty [of_Z 1; of_Z 3] = Some self
    /\ ~ stored self (of_Z 2)
    /\ AddValue self (of_Z 2) = Some self1
    /\ RemoveValue self1 (of_Z 2) = Some self2
    /\ GetNumberOfFrames 64 self2 = GetNumberOfFrames 64 self
    /\ ~ stored self2 (of_Z 2)
    /\ GetFrameForValue 64 self2 (of_Z 2) = Some 1%Z
    /\ to_size_t 64 (-1) <> 1%Z.
Proof.
  exists index_1_3, index_1_2_3, index_1_3.
  split_and!; try reflexivity; try exact not_stored_2. by vm_compute.
Qed.

(** C7, as stated, fails, for [RemoveValue] and for [AddValue]: in the
    index NaN, NaN, NaN, 0, 1 the stored value 1 has frame 0, and frame 3
    after [RemoveValue(2)], which erases the first NaN; in the index
    NaN, NaN, 0, 1, NaN it has frame 3, and frame 0 after [AddValue(2)],
    which inserts 2 after 1.  Both indexes are built from the empty one by
    [AddValue] calls. *)
Lemma GetFrameForValue_NaN_not_stable :
  (exists self self',
     AddValues empty [of_Z 0; of_Z 1; NaN; NaN; NaN] = Some self
     /\ values_ self = [NaN; NaN; NaN; of_Z 0; of_Z 1]
     /\ stored self (of_Z 1)
     /\ dlt (of_Z 1) (of_Z 2) = true
     /\ GetFrameForValue 64 self (of_Z 1) = Some 0%Z
     /\ RemoveValue self (of_Z 2) = Some self'
     /\ values_ self' = [NaN; NaN; of_Z 0; of_Z 1]
     /\ GetFrameForValue 64 self' (of_Z 1) = Some 3%Z)
  /\ (exists self self',
        AddValues empty [NaN; of_Z 1; of_Z 0; NaN; NaN] = Some self
        /\ values_ self = [NaN; NaN; of_Z 0; of_Z 1; NaN]
        /\ stored self (of_Z 1)
        /\ dlt (of_Z 1) (of_Z 2) = true
        /\ GetFrameForValue 64 self (of_Z 1) = Some 3%Z
        /\ AddValue self (of_Z 2) = Some self'
        /\ values_ self' = [NaN; NaN; of_Z 0; of_Z 1; of_Z 2; NaN]
        /\ GetFrameForValue 64 self' (of_Z 1) = Some 0%Z).
Proof.
  split.
  - exists {| values_ := [NaN; NaN; NaN; of_Z 0; of_Z 1] |},
           {| values_ := [NaN; NaN; of_Z 0; of_Z 1] |}.
    split_and!; try reflexivity.
    exists (of_Z 1). split; [|reflexivity]. simpl. set_solver.
  - exists {| values_ := [NaN; NaN; of_Z 0; of_Z 1; NaN] |},
           {| values_ := [NaN; NaN; of_Z 0; of_Z 1; of_Z 2; NaN] |}.
    split_and!; try reflexivity.
    exists (of_Z 1). split; [|reflexivity]. simpl. set_solver.
Qed.

(** C7, amended: in an index that holds no NaN and is strictly increasing
    (every index built without inserting NaN), the frame of a stored value
    [v] is the same after [AddValue(u)] and after [RemoveValue(u)] for
    every [u] greater than [v]. *)
Theorem GetFrameForValue_stable_above w self v u :
  Inv self -> stored self v -> dlt v u = true ->
  (exists self',
     AddValue self u = Some self'
     /\ GetFrameForValue w self' v = GetFrameForValue w self v)
  /\ (exists self',
        RemoveValue self u = Some self'
        /\ GetFrameForValue w self' v = GetFrameForValue w self v).
Proof.
  intros Hinv Hst Hvu.
  destruct (GetFrameForValue_stored w self v Hinv Hst) as (Hget & _ & _).
  destruct Hst as (x & Hin & Heq). split.
  - destruct (AddValue_Inv self u Hinv (dlt_num_r _ _ Hvu))
      as (self' & Hadd & Hinv' & Hvals).
    exists self'. split; [done|].
    assert (stored self' v) as Hst'.
    { exists x. split; [|done]. rewrite Hvals. by apply elem_of_insert_sorted. }
    destruct (GetFrameForValue_stored w self' v Hinv' Hst') as (-> & _ & _).
    rewrite Hget, Hvals.
    by rewrite (count_less_insert_sorted _ u v (dlt_asym _ _ Hvu)).
  - destruct (RemoveValue_Inv self u Hinv) as (self' & Hrem & Hinv' & Hvals).
    exists self'. split; [done|].
    assert (stored self' v) as Hst'.
    { exists x. split; [|done]. rewrite Hvals.
      apply elem_of_remove_lower; [done|].
      by rewrite (dlt_deq_l _ _ u Heq). }
    destruct (GetFrameForValue_stored w self' v Hinv' Hst') as (-> & _ & _).
    rewrite Hget, Hvals.
    by rewrite (count_less_remove_lower _ u v Hvu).
Qed.

Lemma GetFrameForValue_stable_above_witness :
  Inv index_1_3 /\ stored index_1_3 (of_Z 1) /\ dlt (of_Z 1) (of_Z 2) = true
  /\ (exists self',
        AddValue index_1_3 (of_Z 2) = Some self'
        /\ GetFrameForValue 64 self' (of_Z 1)
           = GetFrameForValue 64 index_1_3 (of_Z 1))
  /\ (exists self',
        RemoveValue index_1_3 (of_Z 2) = Some self'
        /\ GetFrameForValue 64 self' (of_Z 1)
           = GetFrameForValue 64 index_1_3 (of_Z 1)).
Proof.
  pose proof Inv_index_1_3 as Hinv.
  assert (stored index_1_3 (of_Z 1)) as Hst
    by (exists (of_Z 1); split; [left|reflexivity]).
  assert (dlt (of_Z 1) (of_Z 2) = true) as Hlt by reflexivity.
  split_and!; [done..| |];
    apply (GetFrameForValue_stable_above 64 index_1_3 (of_Z 1) (of_Z 2)
             Hinv Hst Hlt).
Defined.

(** C8: the three operations return on every object and every double, and
    [GetNumberOfFrames] is a function of the object; but on the index
    holding 1 and 3 the absent value 2 is neither left alone by
    [RemoveValue] nor reported as absent by [GetFrameForValue]. *)
Theorem operations_total_absent_not_noop :
  (forall w self v,
     is_Some (AddValue self v)
     /\ is_Some (RemoveValue self v)
     /\ is_Some (GetFrameForValue w self v))
  /\ exists self,
       AddValues empty [of_Z 1; of_Z 3] = Some self
       /\ ~ stored self (of_Z 2)
       /\ RemoveValue self (of_Z 2) = Some {| values_ := [of_Z 1] |}
       /\ GetFrameForValue 64 self (of_Z 2) = Some 1%Z
       /\ to_size_t 64 (-1) <> 1%Z.
Proof.
  split.
  - intros w [s] v.
    destruct (lower_bound_total dlt s v) as (r & Hr & Hle).
    unfold AddValue, RemoveValue, GetFrameForValue. simpl.
    rewrite Hr. cbn [mbind option_bind]. split_and!.
    + case_decide; [done|].
      destruct (lookup_lt_is_Some_2 s r) as [x Hx]; [lia|].
      rewrite Hx. cbn [mbind option_bind].
      destruct (dne x v); [|done].
      unfold vec_insert. by rewrite decide_True.
    + case_decide; [|done].
      unfold vec_erase. by rewrite decide_True by lia.
    + by case_decide.
  - exists index_1_3.
    split_and!; try reflexivity; try exact not_stored_2. by vm_compute.
Qed.

(** C9: when every stored value is less than the query, the result is
    [-1] converted to [size_t], that is [2^w - 1], and this is not the
    rank of any stored value. *)
Theorem GetFrameForValue_sentinel w self v :
  size_ok w self ->
  Forall (fun x => lt_double x v) (values_ self) ->
  GetFrameForValue w self v = Some (2 ^ w - 1)%Z
  /\ to_size_t w (-1) = (2 ^ w - 1)%Z
  /\ ~ valid_rank self (2 ^ w - 1)%Z.
Proof.
  intros Hsz Hall.
  rewrite GetFrameForValue_partitioned by by apply partitioned_all.
  cbv zeta. rewrite partition_point_all by done.
  rewrite decide_False by (intros Hne; by apply Hne).
  rewrite to_size_t_minus_one. split_and!; [done..|].
  intros (i & Hi & Hlt). unfold size_ok, SIZE_MAX in Hsz. lia.
Qed.

Lemma GetFrameForValue_sentinel_witness :
  size_ok 64 index_1_3
  /\ Forall (fun x => lt_double x (of_Z 4)) (values_ index_1_3)
  /\ GetFrameForValue 64 index_1_3 (of_Z 4) = Some (2 ^ 64 - 1)%Z
  /\ to_size_t 64 (-1) = (2 ^ 64 - 1)%Z
  /\ ~ valid_rank index_1_3 (2 ^ 64 - 1)%Z.
Proof.
  assert (size_ok 64 index_1_3) as Hsz by (by vm_compute).
  assert (Forall (fun x => lt_double x (of_Z 4)) (values_ index_1_3)) as Hall
    by (repeat constructor).
  split_and!; [done..| | |];
    apply (GetFrameForValue_sentinel 64 index_1_3 (of_Z 4) Hsz Hall).
Defined.

(** C10, as stated, fails: on the empty index [AddValue(NaN)] and
    [AddValue(1)] leave different sequences in the two orders, and so do
    [AddValue(+0)] and [AddValue(-0)]. *)
Lemma AddValue_order_matters :
  (exists self1 self2,
     AddValues empty [NaN; of_Z 1] = Some self1
     /\ AddValues empty [of_Z 1; NaN] = Some self2
     /\ self1 <> self2)
  /\ (exists self1 self2,
        AddValues empty [pos_zero; neg_zero] = Some self1
        /\ AddValues empty [neg_zero; pos_zero] = Some self2
        /\ self1 <> self2).
Proof.
  split.
  - exists {| values_ := [of_Z 1; NaN] |}, {| values_ := [NaN; of_Z 1] |}.
    split_and!; [reflexivity..|discriminate].
  - exists {| values_ := [pos_zero] |}, {| values_ := [neg_zero] |}.
    split_and!; [reflexivity..|discriminate].
Qed.

(** C10, amended: on an object that satisfies the invariant, two runs of
    [AddValue] with the same numbers in different orders both return, with
    sequences equal element by element under [==]; they are the same
    sequence unless both [+0] and [-0] are among the numbers. *)
Theorem AddValues_permutation self (l1 l2 : list double) :
  Inv self -> Forall num l1 -> l1 ≡ₚ l2 ->
  exists self1 self2,
    AddValues self l1 = Some self1
    /\ AddValues self l2 = Some self2
    /\ same_values self1 self2
    /\ (one_zero l1 -> self1 = self2).
Proof.
  intros Hinv Hn1 Hp.
  assert (Forall num l2) as Hn2 by (by rewrite <- Hp).
  destruct (AddValues_Inv l1 self Hinv Hn1) as (s1 & Hr1 & _ & Hv1).
  destruct (AddValues_Inv l2 self Hinv Hn2) as (s2 & Hr2 & _ & Hv2).
  exists s1, s2. split_and!; [done..| |].
  - unfold same_values. rewrite Hv1, Hv2.
    apply foldl_insert_sorted_perm; [done| |done]. apply Hinv.
  - intros Hz. destruct s1 as [v1], s2 as [v2]. simpl in *. f_equal.
    rewrite Hv1, Hv2.
    apply foldl_insert_sorted_perm_eq; [done| |done|done]. apply Hinv.
Qed.

Lemma AddValues_permutation_witness :
  Inv index_1_3 /\ Forall num [of_Z 2; of_Z 4]
  /\ [of_Z 2; of_Z 4] ≡ₚ [of_Z 4; of_Z 2]
  /\ exists self1 self2,
       AddValues index_1_3 [of_Z 2; of_Z 4] = Some self1
       /\ AddValues index_1_3 [of_Z 4; of_Z 2] = Some self2
       /\ same_values self1 self2
       /\ (one_zero [of_Z 2; of_Z 4] -> self1 = self2).
Proof.
  pose proof Inv_index_1_3 as Hinv.
  assert (Forall num [of_Z 2; of_Z 4]) as Hn by (repeat constructor).
  assert ([of_Z 2; of_Z 4] ≡ₚ [of_Z 4; of_Z 2]) as Hp by apply perm_swap.
  split_and!; [done..|].
  exact (AddValues_permutation index_1_3 _ _ Hinv Hn Hp).
Defined.

End Claims.

(** ** More on the index: what each call does to the stored values *)

Section IndexFacts.

Implicit Types (s t : list double) (v u x y : double).
Implicit Types (self : AnimationFrameOrder) (w : Z).

Lemma stored_insert_sorted s v u :
  num v ->
  (exists x, x ∈ insert_sorted v s /\ deq x u = true)
  <-> (exists x, x ∈ s /\ deq x u = true) \/ deq v u = true.
Proof.
  intros Hv. induction s as [|z t IH]; simpl.
  - split.
    + intros (x & Hx & Hxu). apply list_elem_of_singleton in Hx as ->.
      by right.
    + intros [(x & Hx & _)|Hvu]; [by apply elem_of_nil in Hx|].
      exists v. split; [left|done].
  - destruct (dlt z v) eqn:Hzv.
    + split.
      * intros (x & Hx & Hxu). apply elem_of_cons in Hx as [->|Hx].
        -- left. exists z. split; [left|done].
        -- destruct (proj1 IH) as [(x' & Hx' & Hx'u)|Hvu]; [by exists x| |].
           ++ left. exists x'. split; [by right|done].
           ++ by right.
      * intros [(x & Hx & Hxu)|Hvu].
        -- apply elem_of_cons in Hx as [->|Hx].
           ++ exists z. split; [left|done].
           ++ destruct (proj2 IH) as (x' & Hx' & Hx'u);
                [left; by exists x|]. exists x'. split; [by right|done].
        -- destruct (proj2 IH) as (x' & Hx' & Hx'u); [by right|].
           exists x'. split; [by right|done].
    + unfold dne. destruct (deq z v) eqn:Hzveq; simpl.
      * split; [by left|]. intros [H|Hvu]; [done|].
        exists z. split; [left|]. by rewrite (deq_deq_l _ _ u Hzveq).
      * split.
        -- intros (x & Hx & Hxu). apply elem_of_cons in Hx as [->|Hx].
           ++ by right.
           ++ left. by exists x.
        -- intros [(x & Hx & Hxu)|Hvu].
           ++ exists x. split; [by right|done].
           ++ exists v. split; [left|done].
Qed.

Lemma length_insert_sorted_stored s v x :
  increasing s -> x ∈ s -> deq x v = true ->
  length (insert_sorted v s) = length s.
Proof. intros Hs Hx Heq. by rewrite (insert_sorted_stored s v x). Qed.

(** On an increasing vector [remove_lower] of a stored value erases the
    element that equals it. *)
Lemma remove_lower_stored s v :
  increasing s -> (exists x, x ∈ s /\ deq x v = true) ->
  length (remove_lower v s) + 1 = length s
  /\ (forall x, x ∈ remove_lower v s -> deq x v = false)
  /\ (forall x, x ∈ s -> deq x v = false -> x ∈ remove_lower v s)
  /\ (forall x, x ∈ remove_lower v s -> x ∈ s).
Proof.
  intros Hs. induction Hs as [|z t Ht IH Hz]; intros (x & Hx & Hxv).
  - by apply elem_of_nil in Hx.
  - simpl. rewrite Forall_forall in Hz. destruct (dlt z v) eqn:Hzv.
    + assert (x ∈ t) as Hxt.
      { apply elem_of_cons in Hx as [->|Hx]; [|done].
        rewrite (deq_not_dlt _ _ Hxv) in Hzv. discriminate. }
      destruct IH as (Hlen & Hgone & Hkept & Hsub); [by exists x|].
      split_and!.
      * simpl. lia.
      * intros y [->|Hy]%elem_of_cons; [by apply dlt_not_deq|by apply Hgone].
      * intros y [->|Hy]%elem_of_cons Hne; [left|right; by apply Hkept].
      * intros y [->|Hy]%elem_of_cons; [left|right; by apply Hsub].
    + assert (deq z v = true) as Hzveq.
      { apply elem_of_cons in Hx as [->|Hx]; [done|].
        pose proof (Hz x Hx) as Hzx. unfold lt_double in Hzx.
        rewrite (dlt_deq_r _ _ _ Hxv) in Hzx. congruence. }
      split_and!.
      * simpl. lia.
      * intros y Hy. pose proof (Hz y Hy) as Hzy.
        destruct (deq y v) eqn:E; [|done].
        unfold lt_double in Hzy. rewrite (dlt_deq_r _ _ _ E) in Hzy. congruence.
      * intros y [->|Hy]%elem_of_cons Hne; [congruence|done].
      * intros y Hy. by right.
Qed.

Lemma run_ops_Inv ops : forall self,
  Inv self -> Forall op_num ops ->
  exists self', run_ops self ops = Some self' /\ Inv self'.
Proof.
  induction ops as [|op rest IH]; intros self Hinv Hn; simpl.
  - by exists self.
  - apply Forall_cons in Hn as [Hop Hrest].
    assert (exists self1, run_op self op = Some self1 /\ Inv self1)
      as (self1 & -> & Hinv1).
    { destruct op as [v|v]; simpl in *.
      - destruct (AddValue_Inv self v Hinv Hop) as (self1 & ? & ? & _). eauto.
      - destruct (RemoveValue_Inv self v Hinv) as (self1 & ? & ? & _). eauto. }
    cbn [mbind option_bind]. by apply IH.
Qed.

(** X1: any run of [AddValue] and [RemoveValue] calls on a new object
    returns and leaves the vector strictly increasing, without two values
    that compare equal, provided no [AddValue] is given NaN; the arguments
    of [RemoveValue] are arbitrary (absent values and NaN included). *)
Theorem run_ops_increasing (ops : list Op) :
  Forall op_num ops ->
  exists self,
    run_ops empty ops = Some self
    /\ Forall num (values_ self)
    /\ increasing (values_ self)
    /\ no_duplicates (values_ self).
Proof.
  intros Hn.
  destruct (run_ops_Inv ops empty Inv_empty Hn) as (self & Hrun & Hnum & Hinc).
  exists self. split_and!; try done. by apply increasing_no_duplicates.
Qed.

Lemma run_ops_increasing_witness :
  Forall op_num
    [OpAddValue (of_Z 3); OpRemoveValue NaN; OpAddValue (of_Z 1);
     OpRemoveValue (of_Z 2); OpAddValue (of_Z 2)]
  /\ exists self,
       run_ops empty
         [OpAddValue (of_Z 3); OpRemoveValue NaN; OpAddValue (of_Z 1);
          OpRemoveValue (of_Z 2); OpAddValue (of_Z 2)] = Some self
       /\ Forall num (values_ self)
       /\ increasing (values_ self)
       /\ no_duplicates (values_ self).
Proof.
  assert (Forall op_num
    [OpAddValue (of_Z 3); OpRemoveValue NaN; OpAddValue (of_Z 1);
     OpRemoveValue (of_Z 2); OpAddValue (of_Z 2)]) as H
    by (repeat constructor).
  split; [exact H|exact (run_ops_increasing _ H)].
Defined.

(** X2: [AddValue] of a number returns; afterwards the number is stored,
    the stored values are the old ones and the new one, and the vector has
    grown by one element exactly when the number was not stored before. *)
Theorem AddValue_stored self v :
  Inv self -> num v ->
  exists self',
    AddValue self v = Some self'
    /\ Inv self'
    /\ stored self' v
    /\ (forall u, stored self' u <-> stored self u \/ deq v u = true)
    /\ (stored self v -> self' = self)
    /\ (~ stored self v ->
        length (values_ self') = S (length (values_ self))).
Proof.
  intros Hinv Hv.
  destruct (AddValue_Inv self v Hinv Hv) as (self' & Hadd & Hinv' & Hvals).
  exists self'. split; [done|]. split; [done|].
  assert (forall u, stored self' u <-> stored self u \/ deq v u = true) as Hst.
  { intros u. unfold stored. rewrite Hvals. by apply stored_insert_sorted. }
  split_and!; [|done| |].
  - apply Hst. right. by apply deq_refl.
  - intros (x & Hx & Hxv). destruct self as [s], self' as [s'].
    simpl in *. f_equal. rewrite Hvals.
    apply (insert_sorted_stored s v x); [apply Hinv|done|done].
  - intros Hns. rewrite Hvals. apply length_insert_sorted_fresh.
    intros x Hx. destruct (deq x v) eqn:E; [|done].
    destruct Hns. by exists x.
Qed.

Lemma AddValue_stored_witness :
  Inv index_1_3 /\ num (of_Z 2)
  /\ exists self',
       AddValue index_1_3 (of_Z 2) = Some self'
       /\ Inv self'
       /\ stored self' (of_Z 2)
       /\ (forall u, stored self' u
                     <-> stored index_1_3 u \/ deq (of_Z 2) u = true)
       /\ (stored index_1_3 (of_Z 2) -> self' = index_1_3)
       /\ (~ stored index_1_3 (of_Z 2) ->
           length (values_ self') = S (length (values_ index_1_3))).
Proof.
  pose proof Inv_index_1_3 as Hinv.
  assert (num (of_Z 2)) as Hv by reflexivity.
  split_and!; [done..|].
  exact (AddValue_stored index_1_3 (of_Z 2) Hinv Hv).
Defined.

(** X3: [RemoveValue] of a stored value returns; afterwards the value is
    not stored, every other stored value still is, nothing else is, and
    the vector has one element less. *)
Theorem RemoveValue_stored_erases self v :
  Inv self -> stored self v ->
  exists self',
    RemoveValue self v = Some self'
    /\ Inv self'
    /\ ~ stored self' v
    /\ (forall u, stored self' u <-> stored self u /\ deq u v = false)
    /\ length (values_ self') + 1 = length (values_ self).
Proof.
  intros Hinv Hst.
  destruct (RemoveValue_Inv self v Hinv) as (self' & Hrem & Hinv' & Hvals).
  destruct (remove_lower_stored (values_ self) v (proj2 Hinv) Hst)
    as (Hlen & Hgone & Hkept & Hsub).
  exists self'. split; [done|]. split; [done|]. rewrite Hvals.
  split_and!; [| |done].
  - intros (x & Hx & Hxv). rewrite Hvals in Hx.
    rewrite (Hgone x Hx) in Hxv. discriminate.
  - intros u. unfold stored. rewrite Hvals. split.
    + intros (x & Hx & Hxu). split; [exists x; split; [by apply Hsub|done]|].
      rewrite <- (deq_deq_l _ _ v Hxu). by apply Hgone.
    + intros [(x & Hx & Hxu) Huv]. exists x. split; [|done].
      apply Hkept; [done|]. by rewrite (deq_deq_l _ _ v Hxu).
Qed.

Lemma RemoveValue_stored_erases_witness :
  Inv index_1_2_3 /\ stored index_1_2_3 (of_Z 2)
  /\ exists self',
       RemoveValue index_1_2_3 (of_Z 2) = Some self'
       /\ Inv self'
       /\ ~ stored self' (of_Z 2)
       /\ (forall u, stored self' u
                     <-> stored index_1_2_3 u /\ deq u (of_Z 2) = false)
       /\ length (values_ self') + 1 = length (values_ index_1_2_3).
Proof.
  pose proof Inv_index_1_2_3 as Hinv.
  assert (stored index_1_2_3 (of_Z 2)) as Hst
    by (exists (of_Z 2); split; [right; left|reflexivity]).
  split_and!; [done..|].
  exact (RemoveValue_stored_erases index_1_2_3 (of_Z 2) Hinv Hst).
Defined.

End IndexFacts.

Section IndexRanks.

Implicit Types (s t : list double) (v u x y z : double).
Implicit Types (self : AnimationFrameOrder) (w : Z).

Lemma count_less_insert_sorted_below s v u :
  dlt v u = true -> (forall x, x ∈ s -> deq x v = false) ->
  count_less (insert_sorted v s) u = S (count_less s u).
Proof.
  intros Hvu. induction s as [|z t IH]; intros Hfresh; simpl.
  - by rewrite Hvu.
  - destruct (dlt z v) eqn:Hzv; simpl.
    + rewrite IH; [lia|]. intros x Hx. apply Hfresh. by right.
    + unfold dne. rewrite (Hfresh z) by left. simpl. by rewrite Hvu.
Qed.

Lemma count_less_remove_lower_below s v u :
  increasing s -> (exists x, x ∈ s /\ deq x v = true) -> dlt v u = true ->
  S (count_less (remove_lower v s) u) = count_less s u.
Proof.
  intros Hs. induction Hs as [|z t Ht IH Hz]; intros (x & Hx & Hxv) Hvu.
  - by apply elem_of_nil in Hx.
  - simpl. rewrite Forall_forall in Hz. destruct (dlt z v) eqn:Hzv.
    + assert (x ∈ t) as Hxt.
      { apply elem_of_cons in Hx as [->|Hx]; [|done].
        rewrite (deq_not_dlt _ _ Hxv) in Hzv. discriminate. }
      simpl. rewrite <- IH; [lia|by exists x|done].
    + assert (deq z v = true) as Hzveq.
      { apply elem_of_cons in Hx as [->|Hx]; [done|].
        pose proof (Hz x Hx) as Hzx. unfold lt_double in Hzx.
        rewrite (dlt_deq_r _ _ _ Hxv) in Hzx. congruence. }
      by rewrite (dlt_deq_l _ _ u Hzveq), Hvu.
Qed.

Lemma partition_point_length (p : double -> bool) s :
  partition_point p s = length s -> Forall (fun y => p y = true) s.
Proof.
  induction s as [|z t IH]; simpl; [constructor|].
  destruct (p z) eqn:Hz; [|discriminate].
  intros [= Hlen]. constructor; [done|by apply IH].
Qed.

Lemma deq_nan_r x : deq x NaN = false.
Proof. by destruct x as [[]|[]| |[] ? ?]. Qed.

Lemma insert_sorted_remove_lower s x :
  increasing s -> x ∈ s -> insert_sorted x (remove_lower x s) = s.
Proof.
  intros Hs. induction Hs as [|z t Ht IH Hz]; intros Hx.
  - by apply elem_of_nil in Hx.
  - simpl. rewrite Forall_forall in Hz. destruct (dlt z x) eqn:Hzx.
    + simpl. rewrite Hzx. f_equal. apply IH.
      apply elem_of_cons in Hx as [->|Hx]; [|done].
      by rewrite dlt_irrefl in Hzx.
    + assert (x = z) as ->.
      { apply elem_of_cons in Hx as [->|Hx]; [done|].
        pose proof (Hz x Hx). congruence. }
      destruct t as [|y t']; [done|]. simpl.
      assert (dlt z y = true) as Hzy by (apply Hz; left).
      rewrite (dlt_asym _ _ Hzy). unfold dne.
      destruct (deq y z) eqn:E; [|done].
      apply deq_sym in E. rewrite (dlt_not_deq _ _ Hzy) in E. discriminate.
Qed.

(** On an increasing vector [remove_lower] of an absent value erases the
    smallest element above it. *)
Lemma remove_lower_absent s v x :
  increasing s -> Forall num s ->
  (forall z, z ∈ s -> deq z v = false) -> x ∈ s -> dlt v x = true ->
  exists y,
    y ∈ s /\ dlt v y = true
    /\ (forall z, z ∈ s -> dlt v z = true -> dlt z y = false)
    /\ (forall z, z ∈ remove_lower v s -> deq z y = false)
    /\ length (remove_lower v s) + 1 = length s.
Proof.
  intros Hs. induction Hs as [|z0 t Ht IH Hz]; intros Hn Hfresh Hx Hvx.
  - by apply elem_of_nil in Hx.
  - simpl. rewrite Forall_forall in Hz. apply Forall_cons in Hn as [Hn0 Hnt].
    pose proof (dlt_num_l _ _ Hvx) as Hv.
    destruct (dlt z0 v) eqn:Hz0v.
    + assert (x ∈ t) as Hxt.
      { apply elem_of_cons in Hx as [->|Hx]; [|done].
        rewrite (dlt_asym _ _ Hz0v) in Hvx. discriminate. }
      destruct IH as (y & Hy & Hvy & Hmin & Hgone & Hlen); [done| |done|done|].
      { intros z Hzt. apply Hfresh. by right. }
      exists y. split_and!; [by right|done| | |simpl; lia].
      * intros z [->|Hzt]%elem_of_cons Hvz; [|by apply Hmin].
        rewrite (dlt_asym _ _ Hz0v) in Hvz. discriminate.
      * intros z [->|Hzt]%elem_of_cons; [|by apply Hgone].
        apply dlt_not_deq. by apply (dlt_trans _ v).
    + assert (dlt v z0 = true) as Hvz0.
      { destruct (dlt v z0) eqn:E; [done|].
        pose proof (dlt_total _ _ Hn0 Hv Hz0v E) as Heq.
        rewrite (Hfresh z0) in Heq by left. discriminate. }
      exists z0. split_and!; [left|done| | |simpl; lia].
      * intros z [->|Hzt]%elem_of_cons _; [apply dlt_irrefl|].
        apply dlt_asym. by apply Hz.
      * intros z Hzt. destruct (deq z z0) eqn:E; [|done].
        apply deq_sym in E. pose proof (Hz z Hzt) as Hlt.
        rewrite (dlt_not_deq _ _ Hlt) in E. discriminate.
Qed.

(** X4: on an object that satisfies the invariant, [AddValue] of a number
    that is not stored moves every stored value above it one frame up. *)
Theorem AddValue_shifts_frames_above w self v u :
  Inv self -> (Z.of_nat (length (values_ self)) < SIZE_MAX w)%Z ->
  ~ stored self v -> stored self u -> dlt v u = true ->
  exists self' r,
    AddValue self v = Some self'
    /\ GetFrameForValue w self u = Some r
    /\ GetFrameForValue w self' u = Some (r + 1)%Z.
Proof.
  intros Hinv Hsz Hns Hst Hvu.
  pose proof (dlt_num_l _ _ Hvu) as Hv.
  destruct (AddValue_Inv self v Hinv Hv) as (self' & Hadd & Hinv' & Hvals).
  assert (forall x, x ∈ values_ self -> deq x v = false) as Hfresh.
  { intros x Hx. destruct (deq x v) eqn:E; [|done]. destruct Hns. by exists x. }
  assert (stored self' u) as Hst'.
  { destruct Hst as (x & Hx & Hxu). exists x. split; [|done].
    rewrite Hvals. by apply elem_of_insert_sorted. }
  exists self', (Z.of_nat (count_less (values_ self) u)).
  split; [done|]. split.
  - apply GetFrameForValue_count_less; [done| |done]. unfold size_ok. lia.
  - rewrite GetFrameForValue_count_less; [|done| |done].
    + rewrite Hvals, count_less_insert_sorted_below by done. f_equal. lia.
    + unfold size_ok. rewrite Hvals, length_insert_sorted_fresh by done. lia.
Qed.

Lemma AddValue_shifts_frames_above_witness :
  Inv index_1_3
  /\ (Z.of_nat (length (values_ index_1_3)) < SIZE_MAX 64)%Z
  /\ ~ stored index_1_3 (of_Z 2) /\ stored index_1_3 (of_Z 3)
  /\ dlt (of_Z 2) (of_Z 3) = true
  /\ exists self' r,
       AddValue index_1_3 (of_Z 2) = Some self'
       /\ GetFrameForValue 64 index_1_3 (of_Z 3) = Some r
       /\ GetFrameForValue 64 self' (of_Z 3) = Some (r + 1)%Z.
Proof.
  pose proof Inv_index_1_3 as Hinv.
  assert (Z.of_nat (length (values_ index_1_3)) < SIZE_MAX 64)%Z as Hsz
    by (by vm_compute).
  pose proof not_stored_2 as Hns.
  assert (stored index_1_3 (of_Z 3)) as Hst
    by (exists (of_Z 3); split; [right; left|reflexivity]).
  assert (dlt (of_Z 2) (of_Z 3) = true) as Hlt by reflexivity.
  split_and!; [done..|].
  exact (AddValue_shifts_frames_above 64 index_1_3 (of_Z 2) (of_Z 3)
           Hinv Hsz Hns Hst Hlt).
Defined.

(** X5: on an object that satisfies the invariant, [RemoveValue] of a
    stored value moves every stored value above it one frame down. *)
Theorem RemoveValue_shifts_frames_above w self v u :
  Inv self -> size_ok w self ->
  stored self v -> stored self u -> dlt v u = true ->
  exists self' r,
    RemoveValue self v = Some self'
    /\ GetFrameForValue w self' u = Some r
    /\ GetFrameForValue w self u = Some (r + 1)%Z.
Proof.
  intros Hinv Hsz Hstv Hstu Hvu.
  destruct (RemoveValue_Inv self v Hinv) as (self' & Hrem & Hinv' & Hvals).
  destruct (remove_lower_stored (values_ self) v (proj2 Hinv) Hstv)
    as (Hlen & _ & Hkept & _).
  assert (stored self' u) as Hst'.
  { destruct Hstu as (x & Hx & Hxu). exists x. split; [|done].
    rewrite Hvals. apply Hkept; [done|].
    rewrite (deq_deq_l _ _ v Hxu). destruct (deq u v) eqn:E; [|done].
    apply deq_sym in E. rewrite (dlt_not_deq _ _ Hvu) in E. discriminate. }
  exists self', (Z.of_nat (count_less (values_ self') u)).
  split; [done|]. split.
  - apply GetFrameForValue_count_less; [done| |done].
    unfold size_ok in *. rewrite Hvals. lia.
  - rewrite GetFrameForValue_count_less by done. f_equal.
    rewrite Hvals.
    rewrite <- (count_less_remove_lower_below (values_ self) v u);
      [lia|apply Hinv|done|done].
Qed.

Lemma RemoveValue_shifts_frames_above_witness :
  Inv index_1_2_3 /\ size_ok 64 index_1_2_3
  /\ stored index_1_2_3 (of_Z 1) /\ stored index_1_2_3 (of_Z 3)
  /\ dlt (of_Z 1) (of_Z 3) = true
  /\ exists self' r,
       RemoveValue index_1_2_3 (of_Z 1) = Some self'
       /\ GetFrameForValue 64 self' (of_Z 3) = Some r
       /\ GetFrameForValue 64 index_1_2_3 (of_Z 3) = Some (r + 1)%Z.
Proof.
  pose proof Inv_index_1_2_3 as Hinv.
  assert (size_ok 64 index_1_2_3) as Hsz by (by vm_compute).
  assert (stored index_1_2_3 (of_Z 1)) as Hst1
    by (exists (of_Z 1); split; [left|reflexivity]).
  assert (stored index_1_2_3 (of_Z 3)) as Hst3
    by (exists (of_Z 3); split; [right; right; left|reflexivity]).
  assert (dlt (of_Z 1) (of_Z 3) = true) as Hlt by reflexivity.
  split_and!; [done..|].
  exact (RemoveValue_shifts_frames_above 64 index_1_2_3 (of_Z 1) (of_Z 3)
           Hinv Hsz Hst1 Hst3 Hlt).
Defined.

(** X6: on an object that satisfies the invariant, frames and positions
    correspond: the frame of the value at position [i] is [i], the value at
    the frame of a stored value equals that value, and two stored values
    with the same frame are equal. *)
Theorem GetFrameForValue_position w self :
  Inv self -> size_ok w self ->
  (forall i x, values_ self !! i = Some x ->
     GetFrameForValue w self x = Some (Z.of_nat i))
  /\ (forall v, stored self v ->
        exists i x, GetFrameForValue w self v = Some (Z.of_nat i)
                    /\ values_ self !! i = Some x /\ deq x v = true)
  /\ (forall u v, stored self u -> stored self v ->
        GetFrameForValue w self u = GetFrameForValue w self v ->
        deq u v = true).
Proof.
  intros Hinv Hsz. split_and!.
  - intros i x Hi.
    assert (num x) as Hx.
    { destruct Hinv as [Hn _]. rewrite Forall_forall in Hn.
      apply Hn. by eapply list_elem_of_lookup_2. }
    rewrite GetFrameForValue_count_less; [|done|done|].
    + f_equal. f_equal.
      apply (count_less_stored _ i x x); [apply Hinv|done|by apply deq_refl].
    + exists x. split; [by eapply list_elem_of_lookup_2|by apply deq_refl].
  - intros v Hst.
    destruct (GetFrameForValue_stored w self v Hinv Hst)
      as (_ & _ & (x & Hx & Hxv)).
    exists (count_less (values_ self) v), x. split; [|done].
    by apply GetFrameForValue_count_less.
  - intros u v Hu Hv Heq.
    rewrite !GetFrameForValue_count_less in Heq by done.
    injection Heq as Heq. apply Nat2Z.inj in Heq.
    destruct (GetFrameForValue_stored w self u Hinv Hu)
      as (_ & _ & (x & Hx & Hxu)).
    destruct (GetFrameForValue_stored w self v Hinv Hv)
      as (_ & _ & (y & Hy & Hyv)).
    rewrite Heq in Hx. rewrite Hx in Hy. injection Hy as <-.
    by apply (deq_trans _ x); [apply deq_sym|].
Qed.

Lemma GetFrameForValue_position_witness :
  Inv index_1_2_3 /\ size_ok 64 index_1_2_3
  /\ (forall i x, values_ index_1_2_3 !! i = Some x ->
        GetFrameForValue 64 index_1_2_3 x = Some (Z.of_nat i))
  /\ (forall v, stored index_1_2_3 v ->
        exists i x, GetFrameForValue 64 index_1_2_3 v = Some (Z.of_nat i)
                    /\ values_ index_1_2_3 !! i = Some x /\ deq x v = true)
  /\ (forall u v, stored index_1_2_3 u -> stored index_1_2_3 v ->
        GetFrameForValue 64 index_1_2_3 u = GetFrameForValue 64 index_1_2_3 v ->
        deq u v = true).
Proof.
  pose proof Inv_index_1_2_3 as Hinv.
  assert (size_ok 64 index_1_2_3) as Hsz by (by vm_compute).
  split_and!; [done..| | |];
    apply (GetFrameForValue_position 64 index_1_2_3 Hinv Hsz).
Defined.

(** X7: on an object that satisfies the invariant, the result is the
    converted [-1] exactly when every stored value is less than the
    argument; any other argument, stored or not, gets a frame. *)
Theorem GetFrameForValue_sentinel_iff w self v :
  Inv self -> size_ok w self ->
  GetFrameForValue w self v = Some (SIZE_MAX w)
  <-> Forall (fun x => lt_double x v) (values_ self).
Proof.
  intros [Hn Hs] Hsz.
  rewrite GetFrameForValue_partitioned by by apply increasing_partitioned.
  cbv zeta. split.
  - intros Hget. apply partition_point_length.
    destruct (decide (partition_point (fun x => dlt x v) (values_ self)
                      = length (values_ self))) as [Heq|Hne]; [done|].
    exfalso. rewrite decide_True in Hget by done.
    pose proof (partition_point_le (fun x => dlt x v) (values_ self)) as Hle.
    rewrite to_size_t_small in Hget by (unfold size_ok in Hsz; lia).
    injection Hget as Hget. unfold size_ok in Hsz. lia.
  - intros Hall. rewrite partition_point_all by done.
    rewrite decide_False by (intros Hne; by apply Hne).
    by rewrite to_size_t_minus_one.
Qed.

Lemma GetFrameForValue_sentinel_iff_witness :
  Inv index_1_3 /\ size_ok 64 index_1_3
  /\ (GetFrameForValue 64 index_1_3 (of_Z 4) = Some (SIZE_MAX 64)
      <-> Forall (fun x => lt_double x (of_Z 4)) (values_ index_1_3)).
Proof.
  pose proof Inv_index_1_3 as Hinv.
  assert (size_ok 64 index_1_3) as Hsz by (by vm_compute).
  split_and!; [done..|].
  exact (GetFrameForValue_sentinel_iff 64 index_1_3 (of_Z 4) Hinv Hsz).
Defined.

End IndexRanks.

Section IndexEdges.

Implicit Types (s t : list double) (v u x y z : double).
Implicit Types (self : AnimationFrameOrder) (w : Z).

Lemma insert_sorted_NaN s : insert_sorted NaN s = NaN :: s.
Proof.
  destruct s as [|x t]; simpl; [done|].
  unfold dne. by rewrite dlt_nan_r, deq_nan_r.
Qed.

Lemma remove_lower_NaN s : remove_lower NaN s = tail s.
Proof. destruct s as [|x t]; simpl; [done|]. by rewrite dlt_nan_r. Qed.

Lemma partition_point_NaN s : partition_point (fun x => dlt x NaN) s = 0.
Proof. destruct s as [|x t]; simpl; [done|]. by rewrite dlt_nan_r. Qed.

(** X8: NaN as argument, on any vector whatever it holds: [AddValue(NaN)]
    always stores one more NaN, in front of all values; [RemoveValue(NaN)]
    erases the first value; [GetFrameForValue(NaN)] is frame 0, or the
    converted [-1] on an empty vector. *)
Theorem NaN_argument w self :
  AddValue self NaN = Some {| values_ := NaN :: values_ self |}
  /\ RemoveValue self NaN = Some {| values_ := tail (values_ self) |}
  /\ GetFrameForValue w self NaN
     = Some (if decide (values_ self = []) then SIZE_MAX w else 0%Z).
Proof.
  split_and!.
  - rewrite AddValue_partitioned by apply partitioned_NaN.
    by rewrite insert_sorted_NaN.
  - rewrite RemoveValue_partitioned by apply partitioned_NaN.
    by rewrite remove_lower_NaN.
  - rewrite GetFrameForValue_partitioned by apply partitioned_NaN.
    cbv zeta. rewrite partition_point_NaN.
    destruct (values_ self) as [|x t].
    + rewrite decide_False by (intros Hne; by apply Hne).
      rewrite decide_True by done. by rewrite to_size_t_minus_one.
    + rewrite decide_True by done. rewrite decide_False by done.
      reflexivity.
Qed.

(** X9: on an object that satisfies the invariant, [AddValue] of an absent
    value followed by [RemoveValue] of it gives the object back, and so does
    [RemoveValue] of an element of the vector followed by [AddValue] of
    it. *)
Theorem AddValue_RemoveValue_round_trips self v :
  Inv self ->
  (~ stored self v ->
   exists self1,
     AddValue self v = Some self1 /\ RemoveValue self1 v = Some self)
  /\ (v ∈ values_ self ->
      exists self1,
        RemoveValue self v = Some self1 /\ AddValue self1 v = Some self).
Proof.
  intros Hinv. split.
  - by apply AddValue_RemoveValue_restores.
  - intros Hv.
    assert (num v) as Hnum.
    { destruct Hinv as [Hn _]. rewrite Forall_forall in Hn. by apply Hn. }
    destruct (RemoveValue_Inv self v Hinv) as (self1 & Hrem & Hinv1 & Hvals1).
    destruct (AddValue_Inv self1 v Hinv1 Hnum) as (self2 & Hadd & _ & Hvals2).
    exists self1. split; [done|]. rewrite Hadd. f_equal.
    destruct self as [s], self2 as [s2]. simpl in *. f_equal.
    rewrite Hvals2, Hvals1. apply insert_sorted_remove_lower; [apply Hinv|done].
Qed.

Lemma AddValue_RemoveValue_round_trips_witness :
  Inv index_1_3
  /\ (~ stored index_1_3 (of_Z 2) ->
      exists self1,
        AddValue index_1_3 (of_Z 2) = Some self1
        /\ RemoveValue self1 (of_Z 2) = Some index_1_3)
  /\ (of_Z 2 ∈ values_ index_1_3 ->
      exists self1,
        RemoveValue index_1_3 (of_Z 2) = Some self1
        /\ AddValue self1 (of_Z 2) = Some index_1_3).
Proof.
  pose proof Inv_index_1_3 as Hinv.
  split; [done|].
  exact (AddValue_RemoveValue_round_trips index_1_3 (of_Z 2) Hinv).
Defined.

(** X10: what [RemoveValue] does with an absent argument: on an object that
    satisfies the invariant, when some stored value is above the argument,
    the smallest such value is erased; when none is, nothing is erased. *)
Theorem RemoveValue_absent self v :
  Inv self -> ~ stored self v ->
  ((exists x, x ∈ values_ self /\ dlt v x = true) ->
   exists self' y,
     RemoveValue self v = Some self'
     /\ y ∈ values_ self /\ dlt v y = true
     /\ (forall z, z ∈ values_ self -> dlt v z = true -> dlt z y = false)
     /\ ~ stored self' y
     /\ length (values_ self') + 1 = length (values_ self))
  /\ (Forall (fun x => lt_double x v) (values_ self) ->
      RemoveValue self v = Some self).
Proof.
  intros Hinv Hns.
  destruct (RemoveValue_Inv self v Hinv) as (self' & Hrem & Hinv' & Hvals).
  assert (forall z, z ∈ values_ self -> deq z v = false) as Hfresh.
  { intros z Hz. destruct (deq z v) eqn:E; [|done]. destruct Hns. by exists z. }
  split.
  - intros (x & Hx & Hvx).
    destruct (remove_lower_absent (values_ self) v x
                (proj2 Hinv) (proj1 Hinv) Hfresh Hx Hvx)
      as (y & Hy & Hvy & Hmin & Hgone & Hlen).
    exists self', y. rewrite Hvals. split_and!; try done.
    intros (z & Hz & Hzy). rewrite Hvals in Hz.
    rewrite (Hgone z Hz) in Hzy. discriminate.
  - intros Hall.
    rewrite RemoveValue_partitioned by by apply partitioned_all.
    f_equal. destruct self as [s]. simpl in *. f_equal.
    clear -Hall. induction Hall as [|z t Hz _ IH]; simpl; [done|].
    by rewrite Hz, IH.
Qed.

Lemma RemoveValue_absent_witness :
  Inv index_1_3 /\ ~ stored index_1_3 (of_Z 2)
  /\ ((exists x, x ∈ values_ index_1_3 /\ dlt (of_Z 2) x = true) ->
      exists self' y,
        RemoveValue index_1_3 (of_Z 2) = Some self'
        /\ y ∈ values_ index_1_3 /\ dlt (of_Z 2) y = true
        /\ (forall z, z ∈ values_ index_1_3 -> dlt (of_Z 2) z = true ->
                      dlt z y = false)
        /\ ~ stored self' y
        /\ length (values_ self') + 1 = length (values_ index_1_3))
  /\ (Forall (fun x => lt_double x (of_Z 2)) (values_ index_1_3) ->
      RemoveValue index_1_3 (of_Z 2) = Some index_1_3).
Proof.
  pose proof Inv_index_1_3 as Hinv.
  pose proof not_stored_2 as Hns.
  split_and!; [done..| |];
    apply (RemoveValue_absent index_1_3 (of_Z 2) Hinv Hns).
Defined.

(** X11: on an object that satisfies the invariant and is not full, the
    number of frames is larger after [AddValue] than before exactly when
    the value was not stored (the test [AddGeometry] makes to decide
    whether to update the animation controls); for NaN it always is. *)
Theorem AddValue_grows_iff_absent w self v :
  Inv self -> (Z.of_nat (length (values_ self)) < SIZE_MAX w)%Z ->
  exists self',
    AddValue self v = Some self'
    /\ ((GetNumberOfFrames w self < GetNumberOfFrames w self')%Z
        <-> ~ stored self v).
Proof.
  intros Hinv Hsz.
  assert (forall n : nat, (Z.of_nat n <= SIZE_MAX w)%Z ->
            to_size_t w (Z.of_nat n) = Z.of_nat n) as Hsmall.
  { intros n Hn. pose proof (to_size_t_small w n Hn) as H.
    by rewrite Z.sub_0_r in H. }
  eexists. split.
  { apply AddValue_partitioned, increasing_partitioned, Hinv. }
  unfold GetNumberOfFrames. simpl.
  destruct (is_nan v) eqn:Hnan.
  - destruct v; try discriminate. fold NaN. rewrite insert_sorted_NaN. simpl.
    rewrite !Hsmall by (simpl; lia). split; [|lia].
    intros _ (x & _ & Hx). by rewrite deq_nan_r in Hx.
  - split.
    + intros Hlt (x & Hx & Hxv).
      rewrite (insert_sorted_stored _ v x (proj2 Hinv) Hx Hxv) in Hlt. lia.
    + intros Hns. rewrite length_insert_sorted_fresh.
      * rewrite !Hsmall by lia. lia.
      * intros x Hx. destruct (deq x v) eqn:E; [|done].
        destruct Hns. by exists x.
Qed.

Lemma AddValue_grows_iff_absent_witness :
  Inv index_1_3
  /\ (Z.of_nat (length (values_ index_1_3)) < SIZE_MAX 64)%Z
  /\ exists self',
       AddValue index_1_3 (of_Z 2) = Some self'
       /\ ((GetNumberOfFrames 64 index_1_3 < GetNumberOfFrames 64 self')%Z
           <-> ~ stored index_1_3 (of_Z 2)).
Proof.
  pose proof Inv_index_1_3 as Hinv.
  assert (Z.of_nat (length (values_ index_1_3)) < SIZE_MAX 64)%Z as Hsz
    by (by vm_compute).
  split_and!; [done..|].
  exact (AddValue_grows_iff_absent 64 index_1_3 (of_Z 2) Hinv Hsz).
Defined.

End IndexEdges.

(** ** [UniquifyName]: a name that is not in use *)

Section Uniquify.

Implicit Types (added : gset string) (name : string).

Local Open Scope Z_scope.

Lemma numbered_inj name : Inj (=) (=) (numbered name).
Proof.
  intros a b Hab. unfold numbered in Hab.
  apply (inj (String.app name)) in Hab.
  apply (inj (String.app "_")) in Hab.
  by apply (inj pretty) in Hab.
Qed.

(** As many numbered names as are all in use, so many names are in the
    set at least. *)
Lemma numbered_in_use added name (n : nat) :
  (forall m, (1 <= m <= Z.of_nat n) -> numbered name m ∈ added) ->
  (n <= size added)%nat.
Proof.
  intros Hall.
  set (l := (fun i : nat => numbered name (Z.of_nat i)) <$> seq 1 n).
  assert (NoDup l) as Hnd.
  { apply NoDup_fmap_2; [|apply NoDup_seq].
    intros i j Hij. apply numbered_inj in Hij. lia. }
  assert (list_to_set l ⊆ added) as Hsub.
  { intros x Hx. apply elem_of_list_to_set in Hx.
    apply list_elem_of_fmap in Hx as (i & -> & Hi).
    apply elem_of_seq in Hi. apply Hall. lia. }
  apply subseteq_size in Hsub.
  rewrite size_list_to_set in Hsub by done.
  unfold l in Hsub. by rewrite length_fmap, length_seq in Hsub.
Qed.

Lemma UniquifyName_loop_spec fuel : forall added name n,
  0 <= n ->
  (forall m, (1 <= m <= n) -> numbered name m ∈ added) ->
  Z.of_nat (size added) < n + Z.of_nat fuel ->
  n + Z.of_nat fuel <= INT_MAX ->
  exists k,
    (n < k <= n + Z.of_nat fuel)
    /\ UniquifyName_loop fuel added name n = Some (numbered name k)
    /\ (numbered name k ∉ added)
    /\ (forall m, (1 <= m < k) -> numbered name m ∈ added).
Proof.
  induction fuel as [|fuel IH]; intros added name n Hn Hused Hfuel Hmax.
  - exfalso.
    pose proof (numbered_in_use added name (Z.to_nat n)) as Hle.
    rewrite Z2Nat.id in Hle by done. specialize (Hle Hused). lia.
  - simpl. unfold int_add.
    rewrite decide_True by (unfold in_int, INT_MIN; lia).
    cbn [mbind option_bind].
    destruct (decide (numbered name (n + 1) ∈ added)) as [Hin|Hnin].
    + destruct (IH added name (n + 1)) as (k & Hk & -> & Hfree & Hbelow);
        [lia| |lia|lia|].
      { intros m Hm. destruct (decide (m = n + 1)) as [->|?]; [done|].
        apply Hused. lia. }
      exists k. split; [lia|done].
    + exists (n + 1). split; [lia|]. split; [done|]. split; [done|].
      intros m Hm. apply Hused. lia.
Qed.

(** X12: when fewer than [INT_MAX] names are in use, [UniquifyName] returns
    a name that is not in use: the name itself when it is free, otherwise
    [name_n] for the least [n >= 1] for which that is free. *)
Theorem UniquifyName_fresh added name :
  Z.of_nat (size added) < INT_MAX ->
  exists unique,
    UniquifyName added name = Some unique
    /\ (unique ∉ added)
    /\ (name ∉ added -> unique = name)
    /\ (name ∈ added ->
        exists n, (1 <= n <= Z.of_nat (size added) + 1)
          /\ unique = numbered name n
          /\ forall m, (1 <= m < n) -> numbered name m ∈ added).
Proof.
  intros Hsize. unfold UniquifyName.
  destruct (decide (name ∉ added)) as [Hfree|Hused].
  - exists name. split_and!; done.
  - destruct (UniquifyName_loop_spec (S (size added)) added name 0)
      as (k & Hk & -> & Hfree & Hbelow); [done|lia|lia|lia|].
    exists (numbered name k). split_and!; [done|done|done|].
    intros _. exists k. split_and!; [lia|lia|done|done].
Qed.

Lemma UniquifyName_fresh_witness :
  Z.of_nat (size ({["a"; "a_1"; "b"]} : gset string)) < INT_MAX
  /\ exists unique,
       UniquifyName {["a"; "a_1"; "b"]} "a" = Some unique
       /\ (unique ∉ ({["a"; "a_1"; "b"]} : gset string))
       /\ ("a" ∉ ({["a"; "a_1"; "b"]} : gset string) -> unique = "a")
       /\ ("a" ∈ ({["a"; "a_1"; "b"]} : gset string) ->
           exists n,
             (1 <= n
              <= Z.of_nat (size ({["a"; "a_1"; "b"]} : gset string)) + 1)
             /\ unique = numbered "a" n
             /\ forall m, (1 <= m < n) ->
                  numbered "a" m ∈ ({["a"; "a_1"; "b"]} : gset string)).
Proof.
  assert (Z.of_nat (size ({["a"; "a_1"; "b"]} : gset string)) < INT_MAX)
    as Hsz by (by vm_compute).
  split; [exact Hsz|].
  exact (UniquifyName_fresh {["a"; "a_1"; "b"]} "a" Hsz).
Defined.

Example UniquifyName_a :
  UniquifyName {["a"; "a_1"; "b"]} "a" = Some "a_2"
  /\ UniquifyName {["a"; "a_1"; "b"]} "c" = Some "c".
Proof. split; by vm_compute. Qed.

End Uniquify.

(** ** [ButtonList]: the frames of the buttons *)

Section ButtonListFacts.

Local Open Scope Z_scope.

Variables (f : Rect.t) (spacing_ width_ : Z).

Implicit Types (children rest : list Size.t) (pref : Size.t).
Implicit Types (frames : list Rect.t) (r : Rect.t).

Lemma int_add_Some a b c : int_add a b = Some c -> c = a + b /\ in_int c.
Proof. unfold int_add. case_decide; [|done]. intros [= <-]. done. Qed.

Lemma int_add_in a b : in_int (a + b) -> int_add a b = Some (a + b).
Proof. intros H. unfold int_add. by rewrite decide_True. Qed.

(** One round of the loop: the child is placed at the current position, or
    at the start of a new row when it is not the first of its row and does
    not fit. *)
Lemma CalcFrames_loop_cons pref rest x y lineHeight frames :
  CalcFrames_loop f spacing_ width_ (pref :: rest) x y lineHeight
  = Some frames ->
  exists x0 y0 lineHeight0 tl,
    frames = Rect.make x0 y0 (Size.width pref) (Size.height pref) :: tl
    /\ CalcFrames_loop f spacing_ width_ rest
         (x0 + (Size.width pref + spacing_)) y0
         (Z.max lineHeight0 (Size.height pref)) = Some tl
    /\ ((x0 = x /\ y0 = y /\ lineHeight0 = lineHeight
         /\ ~ (x > Rect.x f /\ x + Size.width pref > Rect.x f + width_))
        \/ (x0 = Rect.x f /\ y0 = y + lineHeight + spacing_
            /\ lineHeight0 = 0
            /\ x > Rect.x f /\ x + Size.width pref > Rect.x f + width_)).
Proof.
  simpl. intros H.
  destruct (decide (x > Rect.x f)) as [Hx|Hx].
  - destruct (int_add x (Size.width pref)) as [right|] eqn:Hr; [|done].
    apply int_add_Some in Hr as [-> _]. cbn [mbind option_bind] in H.
    destruct (int_add (Rect.x f) width_) as [limit|] eqn:Hl; [|done].
    apply int_add_Some in Hl as [-> _]. cbn [mbind option_bind] in H.
    destruct (bool_decide (x + Size.width pref > Rect.x f + width_))
      eqn:Hw.
    + apply bool_decide_eq_true in Hw.
      destruct (int_add y lineHeight) as [below|] eqn:Hb; [|done].
      apply int_add_Some in Hb as [-> _]. cbn [mbind option_bind] in H.
      destruct (int_add (y + lineHeight) spacing_) as [y'|] eqn:Hy; [|done].
      apply int_add_Some in Hy as [-> _]. cbn [mbind option_bind] in H.
      destruct (int_add (Size.width pref) spacing_) as [step|] eqn:Hs;
        [|done].
      apply int_add_Some in Hs as [-> _]. cbn [mbind option_bind] in H.
      destruct (int_add (Rect.x f) (Size.width pref + spacing_))
        as [x'|] eqn:Hx'; [|done].
      apply int_add_Some in Hx' as [-> _]. cbn [mbind option_bind] in H.
      destruct (CalcFrames_loop _ _ _ rest _ _ _) as [tl|] eqn:Htl; [|done].
      injection H as <-. eexists _, _, _, tl. split; [done|].
      split; [exact Htl|]. right. done.
    + apply bool_decide_eq_false in Hw. cbn [mbind option_bind] in H.
      destruct (int_add (Size.width pref) spacing_) as [step|] eqn:Hs;
        [|done].
      apply int_add_Some in Hs as [-> _]. cbn [mbind option_bind] in H.
      destruct (int_add x (Size.width pref + spacing_))
        as [x'|] eqn:Hx'; [|done].
      apply int_add_Some in Hx' as [-> _]. cbn [mbind option_bind] in H.
      destruct (CalcFrames_loop _ _ _ rest _ _ _) as [tl|] eqn:Htl; [|done].
      injection H as <-. eexists _, _, _, tl. split; [done|].
      split; [exact Htl|]. left. split_and!; try done. intros [_ ?]. done.
  - cbn [mbind option_bind] in H.
    destruct (int_add (Size.width pref) spacing_) as [step|] eqn:Hs;
      [|done].
    apply int_add_Some in Hs as [-> _]. cbn [mbind option_bind] in H.
    destruct (int_add x (Size.width pref + spacing_))
      as [x'|] eqn:Hx'; [|done].
    apply int_add_Some in Hx' as [-> _]. cbn [mbind option_bind] in H.
    destruct (CalcFrames_loop _ _ _ rest _ _ _) as [tl|] eqn:Htl; [|done].
    injection H as <-. eexists _, _, _, tl. split; [done|].
    split; [exact Htl|]. left. split_and!; try done. intros [? _]. done.
Qed.

(** One frame per child, of the child's preferred size. *)
Lemma CalcFrames_loop_sizes children : forall x y lineHeight frames,
  CalcFrames_loop f spacing_ width_ children x y lineHeight = Some frames ->
  Forall2 (fun r pref => Rect.width r = Size.width pref
                         /\ Rect.height r = Size.height pref)
    frames children.
Proof.
  induction children as [|pref rest IH]; intros x y lh frames H.
  - simpl in H. injection H as <-. constructor.
  - apply CalcFrames_loop_cons in H as (x0 & y0 & lh0 & tl & -> & Htl & _).
    constructor; [done|]. by eapply IH.
Qed.

(** Where the frames of the remaining children are, seen from the current
    position: further right in the current row, or below it; and how they
    lie to each other and to the right edge. *)
Lemma CalcFrames_loop_placement children : forall x y lineHeight frames,
  0 <= spacing_ -> Forall size_nonneg children ->
  Rect.x f <= x -> 0 <= lineHeight ->
  CalcFrames_loop f spacing_ width_ children x y lineHeight = Some frames ->
  Forall (fun r => (Rect.y r = y /\ x <= Rect.x r)
                   \/ y + lineHeight + spacing_ <= Rect.y r) frames
  /\ Forall (fun r => Rect.x r = Rect.x f
                      \/ (Rect.x f < Rect.x r
                          /\ Rect.x r + Rect.width r <= Rect.x f + width_))
       frames
  /\ StronglySorted (separated spacing_) frames.
Proof.
  induction children as [|pref rest IH];
    intros x y lh frames Hsp Hnn Hx Hlh H.
  - simpl in H. injection H as <-. split_and!; constructor.
  - apply Forall_cons in Hnn as [[Hw Hh] Hnn].
    apply CalcFrames_loop_cons in H as (x0 & y0 & lh0 & tl & -> & Htl & Hcase).
    assert (Rect.x f <= x0 /\ 0 <= lh0) as [Hx0 Hlh0]
      by (destruct Hcase as [(-> & _ & -> & _)|(-> & _ & -> & _)]; lia).
    destruct (IH (x0 + (Size.width pref + spacing_)) y0
                (Z.max lh0 (Size.height pref)) tl)
      as (Hpos & Hfit & Hsep); [done|done|lia|lia|done|].
    split_and!.
    + constructor.
      * simpl. destruct Hcase as [(-> & -> & _)|(_ & -> & _)]; lia.
      * eapply Forall_impl; [exact Hpos|]. intros r Hr. simpl in Hr.
        destruct Hcase as [(-> & -> & -> & _)|(-> & -> & -> & _)]; lia.
    + constructor; [|done]. simpl.
      destruct Hcase as [(-> & _ & _ & Hno)|(-> & _)]; [|by left].
      destruct (decide (x = Rect.x f)) as [->|Hne]; [by left|].
      right. lia.
    + constructor; [done|].
      eapply Forall_impl; [exact Hpos|]. intros r Hr. unfold separated.
      cbv beta in Hr. cbn [Rect.x Rect.y Rect.width Rect.height]. lia.
Qed.

Lemma StronglySorted_lookup_lt {A} (R : relation A) (l : list A) i j a b :
  StronglySorted R l -> (i < j)%nat ->
  l !! i = Some a -> l !! j = Some b -> R a b.
Proof.
  intros Hl. revert i j.
  induction Hl as [|c t Ht IH Hc]; intros i j Hij Ha Hb.
  - by rewrite lookup_nil in Ha.
  - destruct j as [|j]; [lia|]. simpl in Hb. destruct i as [|i]; simpl in Ha.
    + injection Ha as ->. rewrite Forall_forall in Hc.
      apply Hc. by eapply list_elem_of_lookup_2.
    + apply (IH i j); [lia|done|done].
Qed.

Lemma int_bounds : INT_MIN < 0 < INT_MAX.
Proof. by vm_compute. Qed.

(** The loop returns when no sum can exceed [INT_MAX]. *)
Lemma CalcFrames_loop_total children : forall x y lineHeight,
  0 <= spacing_ -> Forall size_nonneg children ->
  0 <= Rect.x f -> in_int (Rect.x f + width_) ->
  Rect.x f <= x -> 0 <= y -> 0 <= lineHeight ->
  x + total_width spacing_ children <= INT_MAX ->
  y + lineHeight + total_height spacing_ children <= INT_MAX ->
  is_Some (CalcFrames_loop f spacing_ width_ children x y lineHeight).
Proof.
  pose proof int_bounds as Hint.
  induction children as [|pref rest IH];
    intros x y lh Hsp Hnn Hfx Hlim Hx Hy Hlh Hwid Hhei; [by eexists|].
  apply Forall_cons in Hnn as [[Hw Hh] Hnn].
  assert (0 <= total_width spacing_ rest /\ 0 <= total_height spacing_ rest)
    as [Htw Hth].
  { clear -Hsp Hnn. induction Hnn as [|p l [? ?] _ [? ?]]; simpl; lia. }
  simpl in Hwid, Hhei. unfold in_int in *.
  cbn [CalcFrames_loop].
  assert (forall x0 y0 lh0,
            Rect.x f <= x0 <= x -> y0 + Z.max lh0 (Size.height pref)
                                   <= y + lh + Size.height pref + spacing_ ->
            0 <= y0 -> 0 <= lh0 ->
            is_Some (step ← int_add (Size.width pref) spacing_;
                     x' ← int_add x0 step;
                     frames ← CalcFrames_loop f spacing_ width_ rest x' y0
                                (Z.max lh0 (Size.height pref));
                     Some (Rect.make x0 y0 (Size.width pref)
                             (Size.height pref) :: frames))) as Hrest.
  { intros x0 y0 lh0 Hx0 Hy0 Hy0' Hlh0.
    rewrite (int_add_in (Size.width pref) spacing_) by (unfold in_int; lia).
    cbn [mbind option_bind].
    rewrite (int_add_in x0) by (unfold in_int; lia).
    cbn [mbind option_bind].
    destruct (IH (x0 + (Size.width pref + spacing_)) y0
                (Z.max lh0 (Size.height pref))) as [tl ->];
      try done; lia. }
  destruct (decide (x > Rect.x f)) as [Hgt|Hle].
  - rewrite (int_add_in x (Size.width pref)) by (unfold in_int; lia).
    cbn [mbind option_bind].
    rewrite (int_add_in (Rect.x f) width_) by (unfold in_int; lia).
    cbn [mbind option_bind].
    destruct (bool_decide (x + Size.width pref > Rect.x f + width_)).
    + rewrite (int_add_in y lh) by (unfold in_int; lia).
      cbn [mbind option_bind].
      rewrite (int_add_in (y + lh) spacing_) by (unfold in_int; lia).
      cbn [mbind option_bind]. apply Hrest; lia.
    + cbn [mbind option_bind]. apply Hrest; lia.
  - cbn [mbind option_bind]. apply Hrest; lia.
Qed.

End ButtonListFacts.

Section ButtonListProperties.

Local Open Scope Z_scope.

Implicit Types (f : Rect.t) (children : list Size.t).
Implicit Types (frames : list Rect.t) (r : Rect.t).

Lemma mapM_lookup_seq {A} (l : list A) :
  mapM (fun i : nat => l !! i) (seq 0 (length l)) = Some l.
Proof.
  apply mapM_Some. apply Forall2_same_length_lookup_2.
  - by rewrite length_seq.
  - intros i j x Hj Hx. apply lookup_seq in Hj as [-> _]. done.
Qed.

(** X13: with a frame at non-negative coordinates, a spacing and preferred
    sizes that are not negative, a right edge [f.x + width_] that is an
    [int], and [f.x] plus all widths and spacings, and [f.y] plus all
    heights and spacings, at most [INT_MAX], [CalcFrames] returns one frame
    per child, of the child's preferred size, the first one at the corner
    of the frame; [Layout] finds a frame for every child. *)
Theorem CalcFrames_one_frame_per_child f spacing_ width_ children :
  0 <= spacing_ -> Forall size_nonneg children ->
  0 <= Rect.x f -> 0 <= Rect.y f -> in_int (Rect.x f + width_) ->
  Rect.x f + total_width spacing_ children <= INT_MAX ->
  Rect.y f + total_height spacing_ children <= INT_MAX ->
  exists frames,
    CalcFrames f spacing_ width_ children = Some frames
    /\ ButtonList_Layout f spacing_ width_ children = Some frames
    /\ Forall2 (fun r pref => Rect.width r = Size.width pref
                              /\ Rect.height r = Size.height pref)
         frames children
    /\ (forall r, frames !! 0%nat = Some r ->
          Rect.x r = Rect.x f /\ Rect.y r = Rect.y f).
Proof.
  intros Hsp Hnn Hx Hy Hlim Hw Hh.
  destruct (CalcFrames_loop_total f spacing_ width_ children
              (Rect.x f) (Rect.y f) 0) as [frames Hframes];
    [done|done|done|done|lia|done|lia|done|lia|].
  pose proof (CalcFrames_loop_sizes _ _ _ _ _ _ _ _ Hframes) as Hsizes.
  exists frames. unfold ButtonList_Layout, CalcFrames. rewrite Hframes.
  split; [done|]. split.
  - cbn [mbind option_bind].
    rewrite <- (Forall2_length _ _ _ Hsizes). apply mapM_lookup_seq.
  - split; [done|]. intros r Hr.
    destruct children as [|pref rest].
    + simpl in Hframes. injection Hframes as <-. done.
    + apply CalcFrames_loop_cons in Hframes
        as (x0 & y0 & lh0 & tl & -> & _ & Hcase).
      simpl in Hr. injection Hr as <-. simpl.
      destruct Hcase as [(-> & -> & _)|(_ & _ & _ & Hgt & _)]; [done|lia].
Qed.

Lemma CalcFrames_one_frame_per_child_witness :
  0 <= 5
  /\ Forall size_nonneg [Size.make 60 20; Size.make 60 30; Size.make 30 10]
  /\ 0 <= Rect.x (Rect.make 10 20 0 0) /\ 0 <= Rect.y (Rect.make 10 20 0 0)
  /\ in_int (Rect.x (Rect.make 10 20 0 0) + 100)
  /\ Rect.x (Rect.make 10 20 0 0)
     + total_width 5 [Size.make 60 20; Size.make 60 30; Size.make 30 10]
     <= INT_MAX
  /\ Rect.y (Rect.make 10 20 0 0)
     + total_height 5 [Size.make 60 20; Size.make 60 30; Size.make 30 10]
     <= INT_MAX
  /\ exists frames,
       CalcFrames (Rect.make 10 20 0 0) 5 100
         [Size.make 60 20; Size.make 60 30; Size.make 30 10] = Some frames
       /\ ButtonList_Layout (Rect.make 10 20 0 0) 5 100
            [Size.make 60 20; Size.make 60 30; Size.make 30 10] = Some frames
       /\ Forall2 (fun r pref => Rect.width r = Size.width pref
                                 /\ Rect.height r = Size.height pref)
            frames [Size.make 60 20; Size.make 60 30; Size.make 30 10]
       /\ (forall r, frames !! 0%nat = Some r ->
             Rect.x r = Rect.x (Rect.make 10 20 0 0)
             /\ Rect.y r = Rect.y (Rect.make 10 20 0 0)).
Proof.
  assert (0 <= 5) as H1 by lia.
  assert (Forall size_nonneg
            [Size.make 60 20; Size.make 60 30; Size.make 30 10]) as H2
    by (repeat constructor; simpl; lia).
  assert (0 <= Rect.x (Rect.make 10 20 0 0)) as H3 by (simpl; lia).
  assert (0 <= Rect.y (Rect.make 10 20 0 0)) as H4 by (simpl; lia).
  assert (in_int (Rect.x (Rect.make 10 20 0 0) + 100)) as H5
    by (by vm_compute).
  assert (Rect.x (Rect.make 10 20 0 0)
          + total_width 5 [Size.make 60 20; Size.make 60 30; Size.make 30 10]
          <= INT_MAX) as H6 by (by vm_compute).
  assert (Rect.y (Rect.make 10 20 0 0)
          + total_height 5 [Size.make 60 20; Size.make 60 30; Size.make 30 10]
          <= INT_MAX) as H7 by (by vm_compute).
  split_and!; [done..|].
  exact (CalcFrames_one_frame_per_child _ _ _ _ H1 H2 H3 H4 H5 H6 H7).
Defined.

Example CalcFrames_three_buttons :
  CalcFrames (Rect.make 10 20 0 0) 5 100
    [Size.make 60 20; Size.make 60 30; Size.make 30 10]
  = Some [Rect.make 10 20 60 20; Rect.make 10 45 60 30;
          Rect.make 75 45 30 10].
Proof. by vm_compute. Qed.

(** X14: when the spacing and the preferred sizes are not negative, every
    frame [CalcFrames] returns either starts at the left edge of the widget
    or ends within [width_] of it: a button is only wider than the list
    when it is alone at the start of its row. *)
Theorem CalcFrames_fits_width f spacing_ width_ children frames :
  0 <= spacing_ -> Forall size_nonneg children ->
  CalcFrames f spacing_ width_ children = Some frames ->
  Forall (fun r => Rect.x r = Rect.x f
                   \/ (Rect.x f < Rect.x r
                       /\ Rect.x r + Rect.width r <= Rect.x f + width_))
    frames.
Proof.
  intros Hsp Hnn Hframes.
  destruct (CalcFrames_loop_placement f spacing_ width_ children
              (Rect.x f) (Rect.y f) 0 frames) as (_ & Hfit & _);
    [done|done|lia|lia|done|done].
Qed.

Lemma CalcFrames_fits_width_witness :
  0 <= 5
  /\ Forall size_nonneg [Size.make 60 20; Size.make 60 30; Size.make 30 10]
  /\ CalcFrames (Rect.make 10 20 0 0) 5 100
       [Size.make 60 20; Size.make 60 30; Size.make 30 10]
     = Some [Rect.make 10 20 60 20; Rect.make 10 45 60 30;
             Rect.make 75 45 30 10]
  /\ Forall (fun r => Rect.x r = Rect.x (Rect.make 10 20 0 0)
                      \/ (Rect.x (Rect.make 10 20 0 0) < Rect.x r
                          /\ Rect.x r + Rect.width r
                             <= Rect.x (Rect.make 10 20 0 0) + 100))
       [Rect.make 10 20 60 20; Rect.make 10 45 60 30; Rect.make 75 45 30 10].
Proof.
  assert (0 <= 5) as H1 by lia.
  assert (Forall size_nonneg
            [Size.make 60 20; Size.make 60 30; Size.make 30 10]) as H2
    by (repeat constructor; simpl; lia).
  assert (CalcFrames (Rect.make 10 20 0 0) 5 100
            [Size.make 60 20; Size.make 60 30; Size.make 30 10]
          = Some [Rect.make 10 20 60 20; Rect.make 10 45 60 30;
                  Rect.make 75 45 30 10]) as H3 by (by vm_compute).
  split_and!; [done..|].
  exact (CalcFrames_fits_width _ _ _ _ _ H1 H2 H3).
Defined.

(** X15: when the spacing and the preferred sizes are not negative, any two
    frames [CalcFrames] returns are apart by the spacing at least: the later
    one is in the same row further right, or in a row below; so no two
    buttons overlap. *)
Theorem CalcFrames_separated f spacing_ width_ children frames :
  0 <= spacing_ -> Forall size_nonneg children ->
  CalcFrames f spacing_ width_ children = Some frames ->
  forall (i j : nat) r1 r2,
    (i < j)%nat -> frames !! i = Some r1 -> frames !! j = Some r2 ->
    separated spacing_ r1 r2
    /\ (Rect.x r1 + Rect.width r1 <= Rect.x r2
        \/ Rect.y r1 + Rect.height r1 <= Rect.y r2).
Proof.
  intros Hsp Hnn Hframes i j r1 r2 Hij H1 H2.
  destruct (CalcFrames_loop_placement f spacing_ width_ children
              (Rect.x f) (Rect.y f) 0 frames) as (_ & _ & Hsep);
    [done|done|lia|lia|done|].
  pose proof (StronglySorted_lookup_lt _ _ _ _ _ _ Hsep Hij H1 H2) as H.
  split; [done|]. unfold separated in H. lia.
Qed.

Lemma CalcFrames_separated_witness :
  0 <= 5
  /\ Forall size_nonneg [Size.make 60 20; Size.make 60 30; Size.make 30 10]
  /\ CalcFrames (Rect.make 10 20 0 0) 5 100
       [Size.make 60 20; Size.make 60 30; Size.make 30 10]
     = Some [Rect.make 10 20 60 20; Rect.make 10 45 60 30;
             Rect.make 75 45 30 10]
  /\ forall (i j : nat) r1 r2,
       (i < j)%nat ->
       [Rect.make 10 20 60 20; Rect.make 10 45 60 30; Rect.make 75 45 30 10]
         !! i = Some r1 ->
       [Rect.make 10 20 60 20; Rect.make 10 45 60 30; Rect.make 75 45 30 10]
         !! j = Some r2 ->
       separated 5 r1 r2
       /\ (Rect.x r1 + Rect.width r1 <= Rect.x r2
           \/ Rect.y r1 + Rect.height r1 <= Rect.y r2).
Proof.
  assert (0 <= 5) as H1 by lia.
  assert (Forall size_nonneg
            [Size.make 60 20; Size.make 60 30; Size.make 30 10]) as H2
    by (repeat constructor; simpl; lia).
  assert (CalcFrames (Rect.make 10 20 0 0) 5 100
            [Size.make 60 20; Size.make 60 30; Size.make 30 10]
          = Some [Rect.make 10 20 60 20; Rect.make 10 45 60 30;
                  Rect.make 75 45 30 10]) as H3 by (by vm_compute).
  split_and!; [done..|].
  exact (CalcFrames_separated _ _ _ _ _ H1 H2 H3).
Defined.

End ButtonListProperties.

(** ** The current frame and the animation *)

Section ImplFacts.

Local Open Scope Z_scope.

Variable w : Z.

Implicit Types (st : Impl.t) (o : DrawObject.t) (f : Z).
Implicit Types (objects : list DrawObject.t) (shows : list bool).

Lemma GetFrameForValue_is_Some self v : is_Some (GetFrameForValue w self v).
Proof.
  unfold GetFrameForValue.
  destruct (lower_bound_total dlt (values_ self) v) as (r & -> & _).
  cbn [mbind option_bind]. by case_decide.
Qed.

Lemma IsGeometryVisible_is_Some st o : is_Some (IsGeometryVisible w st o).
Proof.
  unfold IsGeometryVisible.
  destruct (GetFrameForValue_is_Some (Impl.frames_ st) (DrawObject.order o))
    as [frame ->].
  by eexists.
Qed.

Lemma more_calls_nil st : more_calls st [] = st.
Proof. destruct st. unfold more_calls. simpl. by rewrite app_nil_r. Qed.

Lemma more_calls_more_calls st cs1 cs2 :
  more_calls (more_calls st cs1) cs2 = more_calls st (cs1 ++ cs2).
Proof. unfold more_calls. simpl. by rewrite app_assoc. Qed.

Lemma UpdateGeometryVisibility_calls st o b :
  IsGeometryVisible w st o = Some b ->
  UpdateGeometryVisibility w st o
  = Some (more_calls st [Scene_ShowGeometry (DrawObject.name o) b;
                         SceneWidget_ForceRedraw]).
Proof.
  intros Hb. unfold UpdateGeometryVisibility. rewrite Hb.
  cbn [mbind option_bind]. f_equal.
  unfold call, more_calls. simpl. by rewrite <- app_assoc.
Qed.

(** The loop over the objects in [SetCurrentFrame]: one [ShowGeometry] and
    one [ForceRedraw] per object, with the flag [IsGeometryVisible] gives
    in the state the loop started in. *)
Lemma for_each_UpdateGeometryVisibility objects : forall st,
  exists shows,
    Forall2 (fun o b => IsGeometryVisible w st o = Some b) objects shows
    /\ for_each (UpdateGeometryVisibility w) st objects
       = Some (more_calls st (visibility_calls objects shows)).
Proof.
  induction objects as [|o rest IH]; intros st.
  - exists []. split; [constructor|]. simpl. by rewrite more_calls_nil.
  - destruct (IsGeometryVisible_is_Some st o) as [b Hb].
    set (st1 := more_calls st [Scene_ShowGeometry (DrawObject.name o) b;
                               SceneWidget_ForceRedraw]).
    destruct (IH st1) as (shows & Hshows & Hrun).
    exists (b :: shows). split.
    + constructor; [done|]. exact Hshows.
    + cbn [for_each]. rewrite (UpdateGeometryVisibility_calls st o b Hb).
      cbn [mbind option_bind]. fold st1. rewrite Hrun.
      unfold st1. by rewrite more_calls_more_calls.
Qed.

Lemma SetCurrentFrame_spec st f :
  let st1 :=
    with_current_frame st
      (settled_frame (GetNumberOfFrames w (Impl.frames_ st)) f) in
  exists shows,
    Forall2 (fun o b => IsGeometryVisible w st1 o = Some b)
      (Impl.objects_ st) shows
    /\ SetCurrentFrame w st f
       = Some (more_calls st1
                 (visibility_calls (Impl.objects_ st) shows
                  ++ [AnimSlider_SetValue (current_frame st1);
                      AnimEdit_SetValue (current_frame st1)])).
Proof.
  intros st1.
  destruct (for_each_UpdateGeometryVisibility (Impl.objects_ st) st1)
    as (shows & Hshows & Hrun).
  exists shows. split; [done|]. unfold SetCurrentFrame.
  assert ((if decide (current_frame (with_current_frame st f)
                      >= GetNumberOfFrames w
                           (Impl.frames_ (with_current_frame st f)))
           then with_current_frame (with_current_frame st f) 0
           else with_current_frame st f) = st1) as ->.
  { unfold st1, settled_frame.
    change (current_frame (with_current_frame st f)) with f.
    change (Impl.frames_ (with_current_frame st f)) with (Impl.frames_ st).
    destruct (decide (f >= GetNumberOfFrames w (Impl.frames_ st)));
      reflexivity. }
  change (Impl.objects_ st1) with (Impl.objects_ st). rewrite Hrun.
  cbn [mbind option_bind]. f_equal.
  unfold call, more_calls. simpl. by rewrite <- !app_assoc.
Qed.

End ImplFacts.

Section ImplProperties.

Local Open Scope Z_scope.

Implicit Types (w : Z) (st : Impl.t) (o : DrawObject.t) (f : Z).

(** X16: [SetCurrentFrame] returns in every state; the current frame
    becomes [f] when [f] is less than the number of frames and 0 otherwise,
    so it is a frame of the index whenever there is one; objects, frames
    and groups stay as they are. *)
Theorem SetCurrentFrame_settles w st f :
  exists st',
    SetCurrentFrame w st f = Some st'
    /\ current_frame st'
       = settled_frame (GetNumberOfFrames w (Impl.frames_ st)) f
    /\ (0 <= f -> 0 < GetNumberOfFrames w (Impl.frames_ st) ->
        0 <= current_frame st' < GetNumberOfFrames w (Impl.frames_ st))
    /\ Impl.objects_ st' = Impl.objects_ st
    /\ Impl.frames_ st' = Impl.frames_ st
    /\ Impl.added_groups_ st' = Impl.added_groups_ st
    /\ UIState.is_animating (Impl.ui_state_ st')
       = UIState.is_animating (Impl.ui_state_ st).
Proof.
  destruct (SetCurrentFrame_spec w st f) as (shows & _ & ->).
  eexists. split; [done|]. split; [done|]. split; [|done].
  intros Hf Hn.
  change (current_frame (more_calls _ _))
    with (settled_frame (GetNumberOfFrames w (Impl.frames_ st)) f).
  unfold settled_frame. case_decide; lia.
Qed.





Lemma OnAnimationTick_fired w st now st' :
  OnAnimationTick w st now = Some (true, st') ->
  current_frame st'
  = next_frame w (GetNumberOfFrames w (Impl.frames_ st)) (current_frame st)
  /\ Impl.frames_ st' = Impl.frames_ st
  /\ Impl.objects_ st' = Impl.objects_ st
  /\ Impl.next_animation_tick_clock_time_ st'
     = dadd now (UIState.frame_delay (Impl.ui_state_ st)).
Proof.
  unfold OnAnimationTick. destruct (dge now _); [|done].
  destruct (SetCurrentFrame_spec w st (to_size_t w (current_frame st + 1)))
    as (shows & _ & ->).
  cbn [mbind option_bind]. intros [= <-]. split; [|done].
  unfold next_frame, settled_frame. simpl. by case_decide.
Qed.

Lemma OnAnimationTicks_fired w nows : forall st results st',
  OnAnimationTicks w st nows = Some (results, st') ->
  Forall (fun fired => fired = true) results ->
  Impl.frames_ st' = Impl.frames_ st
  /\ current_frame st'
     = Nat.iter (length nows)
         (next_frame w (GetNumberOfFrames w (Impl.frames_ st)))
         (current_frame st).
Proof.
  induction nows as [|now rest IH]; intros st results st' Hrun Hall.
  - simpl in Hrun. by injection Hrun as <- <-.
  - cbn [OnAnimationTicks] in Hrun.
    destruct (OnAnimationTick w st now) as [[fired st1]|] eqn:Htick;
      [|done].
    cbn [mbind option_bind] in Hrun.
    destruct (OnAnimationTicks w st1 rest) as [[results1 st2]|] eqn:Hrest;
      [|done].
    cbn [mbind option_bind] in Hrun. injection Hrun as <- <-.
    apply Forall_cons in Hall as [-> Hall].
    apply OnAnimationTick_fired in Htick as (Hcf & Hfr & _).
    destruct (IH _ _ _ Hrest Hall) as (Hfr2 & Hcf2).
    split; [congruence|]. rewrite Hcf2, Hfr, Hcf.
    change (length (now :: rest)) with (S (length rest)).
    by rewrite Nat.iter_succ_r.
Qed.

(** From the frame count itself, as [SetAnimating(true)] leaves it, [k + 1]
    steps lead to frame [k mod n]. *)
Lemma next_frame_cycle w n (k : nat) :
  1 <= n <= SIZE_MAX w ->
  Nat.iter (S k) (next_frame w n) n = Z.of_nat k mod n.
Proof.
  intros Hn. unfold SIZE_MAX in Hn.
  assert (forall c, 0 <= c < n -> next_frame w n c = (c + 1) mod n) as Hstep.
  { intros c Hc. unfold next_frame, to_size_t.
    rewrite (Z.mod_small (c + 1)) by lia. case_decide.
    - assert (c + 1 = n) as -> by lia. by rewrite Z.mod_same by lia.
    - by rewrite Z.mod_small by lia. }
  induction k as [|k IH].
  - simpl. unfold next_frame, to_size_t. rewrite Z.mod_0_l by lia.
    destruct (decide (n + 1 = 2 ^ w)) as [Heq|Hne].
    + rewrite Heq, Z.mod_same by lia. case_decide; [done|lia].
    + rewrite (Z.mod_small (n + 1)) by lia. case_decide; [done|lia].
  - rewrite Nat.iter_succ, IH.
    rewrite Hstep by (apply Z.mod_pos_bound; lia).
    rewrite Z.add_mod_idemp_l by lia. f_equal. lia.
Qed.

(** X18: starting the animation, from a state that is not animating, and
    letting [k + 1] ticks fire leaves the current frame at [k mod n], where
    [n >= 1] is the number of frames, a number that [size_t] holds: the
    animation shows the frames 0, 1, ..., n - 1 in turn and starts over. *)
Theorem animation_cycles w st nows results st1 st2 :
  size_ok w (Impl.frames_ st) -> values_ (Impl.frames_ st) <> [] ->
  UIState.is_animating (Impl.ui_state_ st) = false ->
  SetAnimating w st true = Some st1 ->
  OnAnimationTicks w st1 nows = Some (results, st2) ->
  Forall (fun fired => fired = true) results ->
  nows <> [] ->
  current_frame st2
  = (Z.of_nat (length nows) - 1)
    mod Z.of_nat (length (values_ (Impl.frames_ st))).
Proof.
  intros Hsz Hne Hoff Hstart Hrun Hall Hnows.
  assert (1 <= Z.of_nat (length (values_ (Impl.frames_ st)))
          <= SIZE_MAX w) as Hn.
  { unfold size_ok in Hsz. destruct (values_ (Impl.frames_ st)); [done|].
    simpl in *. lia. }
  assert (GetNumberOfFrames w (Impl.frames_ st)
          = Z.of_nat (length (values_ (Impl.frames_ st)))) as Hcount.
  { unfold GetNumberOfFrames, to_size_t. unfold SIZE_MAX in Hn.
    apply Z.mod_small. lia. }
  unfold SetAnimating in Hstart. rewrite Hoff in Hstart.
  rewrite decide_False in Hstart by done.
  cbn [mbind option_bind] in Hstart. injection Hstart as <-.
  destruct (OnAnimationTicks_fired w nows _ _ _ Hrun Hall) as (_ & ->).
  change (Impl.frames_ (call (call _ _) _)) with (Impl.frames_ st).
  change (current_frame (call (call _ _) _))
    with (GetNumberOfFrames w (Impl.frames_ st)).
  rewrite Hcount. destruct nows as [|now rest]; [done|].
  change (length (now :: rest)) with (S (length rest)).
  rewrite next_frame_cycle by done. f_equal. lia.
Qed.

Lemma animation_cycles_witness :
  size_ok 64 (Impl.frames_ example_impl)
  /\ values_ (Impl.frames_ example_impl) <> []
  /\ UIState.is_animating (Impl.ui_state_ example_impl) = false
  /\ exists st1 results st2,
       SetAnimating 64 example_impl true = Some st1
       /\ OnAnimationTicks 64 st1 [of_Z 1; of_Z 1; of_Z 2] = Some (results, st2)
       /\ Forall (fun fired => fired = true) results
       /\ [of_Z 1; of_Z 1; of_Z 2] <> []
       /\ current_frame st2
          = (Z.of_nat (length [of_Z 1; of_Z 1; of_Z 2]) - 1)
            mod Z.of_nat (length (values_ (Impl.frames_ example_impl))).
Proof.
  assert (size_ok 64 (Impl.frames_ example_impl)) as Hsz by (by vm_compute).
  assert (values_ (Impl.frames_ example_impl) <> []) as Hne by done.
  assert (UIState.is_animating (Impl.ui_state_ example_impl) = false)
    as Hoff by reflexivity.
  destruct (SetAnimating 64 example_impl true) as [st1|] eqn:Hstart;
    [|by vm_compute in Hstart].
  destruct (OnAnimationTicks 64 st1 [of_Z 1; of_Z 1; of_Z 2])
    as [[results st2]|] eqn:Hrun.
  2: { exfalso. vm_compute in Hstart. injection Hstart as <-.
       by vm_compute in Hrun. }
  assert (Forall (fun fired => fired = true) results) as Hall.
  { vm_compute in Hstart. injection Hstart as <-.
    vm_compute in Hrun. injection Hrun as <- _. by repeat constructor. }
  assert ([of_Z 1; of_Z 1; of_Z 2] <> []) as Hnows by done.
  split_and!; [done..|]. exists st1, results, st2.
  split_and!; [done..|].
  exact (animation_cycles 64 example_impl _ _ _ _
           Hsz Hne Hoff Hstart Hrun Hall Hnows).
Defined.

Lemma dadd_nan_r a : dadd a NaN = NaN.
Proof. by destruct a as [[]|[]| |[] ? ?]. Qed.

Lemma dge_nan_r a : dge a NaN = false.
Proof. reflexivity. Qed.

(** X19: with a frame delay that is NaN, the first tick that fires sets
    the next tick time to NaN, and no tick fires after it at any clock
    time: the animation stops on that frame. *)
Theorem OnAnimationTick_NaN_delay w st now st' :
  UIState.frame_delay (Impl.ui_state_ st) = NaN ->
  OnAnimationTick w st now = Some (true, st') ->
  forall now', OnAnimationTick w st' now' = Some (false, st').
Proof.
  intros Hdelay Htick now'.
  apply OnAnimationTick_fired in Htick as (_ & _ & _ & Hnext).
  rewrite Hdelay, dadd_nan_r in Hnext.
  unfold OnAnimationTick. by rewrite Hnext, dge_nan_r.
Qed.

End ImplProperties.

(** ** [RemoveGeometry] and the index *)

Section RemoveGeometryFacts.

Local Open Scope Z_scope.

Implicit Types (w : Z) (st : Impl.t) (o : DrawObject.t) (v : double).
Implicit Types (objects : list DrawObject.t) (name : string).

Lemma OnAnimationTick_NaN_delay_witness :
  UIState.frame_delay (Impl.ui_state_ example_NaN_delay) = NaN
  /\ exists st',
       OnAnimationTick 64 example_NaN_delay (of_Z 1) = Some (true, st')
       /\ forall now', OnAnimationTick 64 st' now' = Some (false, st').
Proof.
  assert (UIState.frame_delay (Impl.ui_state_ example_NaN_delay) = NaN)
    as Hdelay by reflexivity.
  split; [exact Hdelay|].
  destruct (OnAnimationTick 64 example_NaN_delay (of_Z 1))
    as [[fired st']|] eqn:Htick; [|by vm_compute in Htick].
  assert (fired = true) as ->.
  { unfold OnAnimationTick in Htick.
    change (dge (of_Z 1) _) with true in Htick.
    destruct (SetCurrentFrame 64 _ _); [|done].
    cbn [mbind option_bind] in Htick. by injection Htick as <- _. }
  exists st'. split; [done|].
  exact (OnAnimationTick_NaN_delay 64 example_NaN_delay (of_Z 1) st'
           Hdelay Htick).
Defined.

Lemma SetAnimating_fields w st b :
  exists st',
    SetAnimating w st b = Some st'
    /\ Impl.objects_ st' = Impl.objects_ st
    /\ Impl.frames_ st' = Impl.frames_ st
    /\ Impl.added_groups_ st' = Impl.added_groups_ st
    /\ UIState.enabled_groups (Impl.ui_state_ st')
       = UIState.enabled_groups (Impl.ui_state_ st).
Proof.
  unfold SetAnimating. case_decide; [by exists st|].
  destruct b.
  - cbn [mbind option_bind]. by eexists.
  - destruct (SetCurrentFrame_spec w
                (call (with_is_animating st false)
                   (Window_SetOnTickEvent false)) 0) as (shows & _ & ->).
    cbn [mbind option_bind]. by eexists.
Qed.

Lemma find_name_range name objects : forall k i,
  find_name name objects k = Some i ->
  (k <= i < k + length objects)%nat.
Proof.
  induction objects as [|o rest IH]; intros k i H; [done|].
  simpl in H. case_decide.
  - injection H as <-. simpl. lia.
  - apply IH in H. simpl. lia.
Qed.


(** What [RemoveGeometry] leaves once the object is found and erased (or
    not found), the others with its order are counted and the index is
    updated: the rest of the function returns and keeps objects and
    index. *)
Lemma RemoveGeometry_stages w st name group order st0 n frames :
  match find_name name (Impl.objects_ st) 0
        return option (string * double * Impl.t) with
  | Some i =>
      o ← Impl.objects_ st !! i;
      objects ← vec_erase (Impl.objects_ st) i;
      next ← objects !! i;
      Some (DrawObject.group o, DrawObject.order o,
            call (Impl.make (Impl.added_groups_ st) objects
                    (Impl.frames_ st) (Impl.ui_state_ st)
                    (Impl.next_animation_tick_clock_time_ st)
                    (Impl.calls st))
              (Object2ItemId_erase (DrawObject.name next)))
  | None => Some (EmptyString, minus_1e30, st)
  end = Some (group, order, st0) ->
  count_order order (Impl.objects_ st0) 0 = Some n ->
  (if decide (n = 0) then RemoveValue (Impl.frames_ st0) order
   else Some (Impl.frames_ st0)) = Some frames ->
  exists st',
    RemoveGeometry w st name = Some st'
    /\ Impl.objects_ st' = Impl.objects_ st0
    /\ Impl.frames_ st' = frames
    /\ Impl.added_groups_ st'
       = list_to_set (DrawObject.group <$> Impl.objects_ st0)
    /\ UIState.enabled_groups (Impl.ui_state_ st')
       = filter (fun g => g ∈ Impl.added_groups_ st')
           (UIState.enabled_groups (Impl.ui_state_ st0)).
Proof.
  intros Hfind Hcount Hframes. unfold RemoveGeometry.
  rewrite Hfind. cbn [mbind option_bind]. rewrite Hcount.
  cbn [mbind option_bind]. rewrite Hframes. cbn [mbind option_bind].
  set (st1 := Impl.make (Impl.added_groups_ st0) (Impl.objects_ st0) frames
                (Impl.ui_state_ st0)
                (Impl.next_animation_tick_clock_time_ st0) (Impl.calls st0)).
  assert (exists st2,
            (if decide (GetNumberOfFrames w (Impl.frames_ st1) <= 1)
             then SetAnimating w st1 false else Some st1) = Some st2
            /\ Impl.objects_ st2 = Impl.objects_ st0
            /\ Impl.frames_ st2 = frames
            /\ UIState.enabled_groups (Impl.ui_state_ st2)
               = UIState.enabled_groups (Impl.ui_state_ st0))
    as (st2 & -> & Hobj2 & Hfr2 & Hen2).
  { destruct (decide (GetNumberOfFrames w (Impl.frames_ st1) <= 1));
      [|exists st1; split_and!; reflexivity].
    destruct (SetAnimating_fields w st1 false)
      as (st2 & -> & ? & ? & _ & ?).
    by exists st2. }
  cbn [mbind option_bind].
  match goal with
  | |- context [SetCurrentFrame w ?s ?f] =>
      destruct (SetCurrentFrame_spec w s f) as (shows & _ & ->)
  end.
  cbn [mbind option_bind]. eexists. split; [done|].
  simpl. rewrite Hobj2, Hfr2, Hen2. done.
Qed.

Example minus_1e30_nearest : minus_1e30 = of_Z (- 10 ^ 30).
Proof. by vm_compute. Qed.

Lemma find_name_None name objects : forall k,
  Forall (fun o => DrawObject.name o <> name) objects ->
  find_name name objects k = None.
Proof.
  induction objects as [|o rest IH]; intros k Hall; [done|].
  apply Forall_cons in Hall as [Ho Hall]. simpl.
  rewrite decide_False by done. by apply IH.
Qed.

Lemma count_order_none v objects n :
  Forall (fun o => deq (DrawObject.order o) v = false) objects ->
  count_order v objects n = Some n.
Proof.
  induction 1 as [|o rest Ho _ IH]; [done|].
  cbn [count_order]. by rewrite Ho.
Qed.

(** X20: when the first object with the given name is the last element of
    [objects_] (so also when it is the only object), [RemoveGeometry] has
    no defined result: after erasing the element it reads [objects_[i]] at
    the position of the erased element, which is then past the end. *)
Theorem RemoveGeometry_last_object w st name (i : nat) :
  find_name name (Impl.objects_ st) 0 = Some i ->
  S i = length (Impl.objects_ st) ->
  RemoveGeometry w st name = None.
Proof.
  intros Hfind Hlast. unfold RemoveGeometry. rewrite Hfind.
  destruct (lookup_lt_is_Some_2 (Impl.objects_ st) i) as [o Ho]; [lia|].
  rewrite Ho. cbn [mbind option_bind]. unfold vec_erase.
  rewrite decide_True by lia. cbn [mbind option_bind].
  rewrite lookup_ge_None_2; [done|].
  rewrite length_app, length_take, length_drop. lia.
Qed.

Lemma RemoveGeometry_last_object_witness :
  find_name "c" (Impl.objects_ example_impl) 0 = Some 2%nat
  /\ 3%nat = length (Impl.objects_ example_impl)
  /\ RemoveGeometry 64 example_impl "c" = None.
Proof.
  assert (find_name "c" (Impl.objects_ example_impl) 0 = Some 2%nat)
    as Hfind by reflexivity.
  assert (3%nat = length (Impl.objects_ example_impl)) as Hlast
    by reflexivity.
  split_and!; [done..|].
  exact (RemoveGeometry_last_object 64 example_impl "c" 2 Hfind Hlast).
Defined.

(** X21: [RemoveGeometry] with a name that no object has, when no object
    has the order [-1e30] either, calls [RemoveValue(-1e30)]: with an index
    that satisfies the invariant and whose values are above [-1e30], the
    smallest stored order is erased although every object is kept. *)
Theorem RemoveGeometry_unknown_name w st name x t :
  Forall (fun o => DrawObject.name o <> name) (Impl.objects_ st) ->
  Forall (fun o => deq (DrawObject.order o) minus_1e30 = false)
    (Impl.objects_ st) ->
  Inv (Impl.frames_ st) ->
  values_ (Impl.frames_ st) = x :: t -> dlt minus_1e30 x = true ->
  exists st',
    RemoveGeometry w st name = Some st'
    /\ Impl.objects_ st' = Impl.objects_ st
    /\ values_ (Impl.frames_ st') = t.
Proof.
  intros Hname Horder Hinv Hvals Hlt.
  destruct (RemoveValue_Inv (Impl.frames_ st) minus_1e30 Hinv)
    as (frames & Hrem & _ & Hfr).
  destruct (RemoveGeometry_stages w st name EmptyString minus_1e30 st 0
              frames) as (st' & Hrun & Hobj & Hfr' & _).
  - by rewrite find_name_None.
  - by apply count_order_none.
  - by rewrite decide_True.
  - exists st'. split; [done|]. split; [done|].
    rewrite Hfr', Hfr, Hvals. simpl. by rewrite (dlt_asym _ _ Hlt).
Qed.

Lemma RemoveGeometry_unknown_name_witness :
  Forall (fun o => DrawObject.name o <> "zz") (Impl.objects_ example_impl)
  /\ Forall (fun o => deq (DrawObject.order o) minus_1e30 = false)
       (Impl.objects_ example_impl)
  /\ Inv (Impl.frames_ example_impl)
  /\ values_ (Impl.frames_ example_impl) = [of_Z 1; of_Z 3]
  /\ dlt minus_1e30 (of_Z 1) = true
  /\ exists st',
       RemoveGeometry 64 example_impl "zz" = Some st'
       /\ Impl.objects_ st' = Impl.objects_ example_impl
       /\ values_ (Impl.frames_ st') = [of_Z 3].
Proof.
  assert (Forall (fun o => DrawObject.name o <> "zz")
            (Impl.objects_ example_impl)) as H1 by (by repeat constructor).
  assert (Forall (fun o => deq (DrawObject.order o) minus_1e30 = false)
            (Impl.objects_ example_impl)) as H2 by (by repeat constructor).
  pose proof Inv_index_1_3 as H3.
  assert (values_ (Impl.frames_ example_impl) = [of_Z 1; of_Z 3]) as H4
    by reflexivity.
  assert (dlt minus_1e30 (of_Z 1) = true) as H5 by reflexivity.
  split_and!; [done..|].
  exact (RemoveGeometry_unknown_name 64 example_impl "zz" _ _
           H1 H2 H3 H4 H5).
Defined.



(** X23: whenever [RemoveGeometry] returns, the added groups are exactly
    the groups of the objects that remain, and the enabled groups are the
    groups that were enabled before and still have an object; so every
    enabled group is an added group. *)
Theorem RemoveGeometry_groups w st name st' :
  RemoveGeometry w st name = Some st' ->
  Impl.added_groups_ st'
  = list_to_set (DrawObject.group <$> Impl.objects_ st')
  /\ UIState.enabled_groups (Impl.ui_state_ st')
     = filter (fun g => g ∈ Impl.added_groups_ st')
         (UIState.enabled_groups (Impl.ui_state_ st))
  /\ UIState.enabled_groups (Impl.ui_state_ st') ⊆ Impl.added_groups_ st'.
Proof.
  intros Hrun.
  assert (exists group order st0 n frames,
    match find_name name (Impl.objects_ st) 0
          return option (string * double * Impl.t) with
    | Some i =>
        o ← Impl.objects_ st !! i;
        objects ← vec_erase (Impl.objects_ st) i;
        next ← objects !! i;
        Some (DrawObject.group o, DrawObject.order o,
              call (Impl.make (Impl.added_groups_ st) objects
                      (Impl.frames_ st) (Impl.ui_state_ st)
                      (Impl.next_animation_tick_clock_time_ st)
                      (Impl.calls st))
                (Object2ItemId_erase (DrawObject.name next)))
    | None => Some (EmptyString, minus_1e30, st)
    end = Some (group, order, st0)
    /\ Impl.ui_state_ st0 = Impl.ui_state_ st
    /\ count_order order (Impl.objects_ st0) 0 = Some n
    /\ (if decide (n = 0) then RemoveValue (Impl.frames_ st0) order
        else Some (Impl.frames_ st0)) = Some frames)
    as (group & order & st0 & n & frames & Hfind & Hui & Hcount & Hframes).
  { unfold RemoveGeometry in Hrun.
    destruct (match find_name name (Impl.objects_ st) 0
                    return option (string * double * Impl.t) with
              | Some i => _ | None => _ end)
      as [[[group order] st0]|] eqn:Hfind; [|done].
    cbn [mbind option_bind] in Hrun.
    destruct (count_order order (Impl.objects_ st0) 0) as [n|] eqn:Hcount;
      [|done].
    cbn [mbind option_bind] in Hrun.
    destruct (if decide (n = 0) then RemoveValue (Impl.frames_ st0) order
              else Some (Impl.frames_ st0)) as [frames|] eqn:Hframes;
      [|done].
    exists group, order, st0, n, frames. split; [done|].
    split; [|done].
    destruct (find_name name (Impl.objects_ st) 0) as [i|].
    - destruct (Impl.objects_ st !! i) as [o|]; [|done].
      cbn [mbind option_bind] in Hfind.
      destruct (vec_erase (Impl.objects_ st) i) as [objects|]; [|done].
      cbn [mbind option_bind] in Hfind.
      destruct (objects !! i) as [next|]; [|done].
      cbn [mbind option_bind] in Hfind. by injection Hfind as _ _ <-.
    - by injection Hfind as _ _ <-. }
  destruct (RemoveGeometry_stages w st name group order st0 n frames
              Hfind Hcount Hframes)
    as (st'' & Hrun' & Hobj & _ & Hadded & Henabled).
  rewrite Hrun in Hrun'. injection Hrun' as <-.
  rewrite Hobj, Hadded. split; [done|].
  rewrite Henabled, Hadded, Hui. split; [done|].
  intros g Hg. by apply elem_of_filter in Hg as [? _].
Qed.

Lemma RemoveGeometry_groups_witness :
  exists st',
    RemoveGeometry 64 example_impl "b" = Some st'
    /\ Impl.added_groups_ st'
       = list_to_set (DrawObject.group <$> Impl.objects_ st')
    /\ UIState.enabled_groups (Impl.ui_state_ st')
       = filter (fun g => g ∈ Impl.added_groups_ st')
           (UIState.enabled_groups (Impl.ui_state_ example_impl))
    /\ UIState.enabled_groups (Impl.ui_state_ st') ⊆ Impl.added_groups_ st'.
Proof.
  destruct (RemoveGeometry 64 example_impl "b") as [st'|] eqn:Hrun;
    [|by vm_compute in Hrun].
  exists st'. split; [done|].
  exact (RemoveGeometry_groups 64 example_impl "b" st' Hrun).
Defined.

End RemoveGeometryFacts.

(** * [SetIBL]: which paths are taken as environment maps *)

Section StringFacts.

Implicit Types (s pat a b : string).

Lemma string_length_app a b :
  String.length (a +:+ b) = String.length a + String.length b.
Proof. induction a as [|c a IH]; [done|]. simpl. f_equal. exact IH. Qed.

Lemma string_prefix_app pat s :
  String.prefix pat s = true -> exists b, s = pat +:+ b.
Proof.
  revert s. induction pat as [|c pat IH]; intros s H.
  - by exists s.
  - destruct s as [|d s]; [done|]. cbn in H.
    destruct (Ascii.ascii_dec c d) as [->|]; [|done].
    destruct (IH _ H) as [b ->]. by exists b.
Qed.

(** A position found by [find_first] is one at which the pattern occurs. *)
Lemma find_first_Some pat s k i :
  find_first pat s k = Some i ->
  exists a b, s = a +:+ pat +:+ b /\ i = k + String.length a.
Proof.
  revert k. induction s as [|c s IH]; intros k H; cbn [find_first] in H.
  - destruct (String.prefix pat EmptyString) eqn:Hp; [|done].
    injection H as <-. destruct (string_prefix_app _ _ Hp) as [b Hb].
    exists EmptyString, b. split; [done|]. cbn. lia.
  - destruct (String.prefix pat (String c s)) eqn:Hp.
    + injection H as <-. destruct (string_prefix_app _ _ Hp) as [b Hb].
      exists EmptyString, b. split; [done|]. cbn. lia.
    + destruct (IH _ H) as (a & b & -> & ->).
      exists (String c a), b. split; [done|]. cbn. lia.
Qed.

Lemma find_first_short pat s k :
  String.length s < String.length pat -> find_first pat s k = None.
Proof.
  intros Hlen. destruct (find_first pat s k) as [i|] eqn:H; [|done].
  destruct (find_first_Some _ _ _ _ H) as (a & b & -> & _).
  rewrite !string_length_app in Hlen. lia.
Qed.

Lemma string_length_0 s : String.length s = 0 -> s = EmptyString.
Proof. by destruct s. Qed.

Lemma substr_0_app a b :
  substr_0 (Z.of_nat (String.length a)) (a +:+ b) = a.
Proof.
  induction a as [|c a IH].
  - change (EmptyString +:+ b) with b.
    destruct b; [done|]. cbn [String.length substr_0].
    by rewrite decide_False by lia.
  - change (String c a +:+ b) with (String c (a +:+ b)).
    cbn [String.length substr_0]. rewrite decide_True by lia.
    replace (Z.of_nat (S (String.length a)) - 1)%Z
      with (Z.of_nat (String.length a)) by lia.
    by rewrite IH.
Qed.

Lemma substr_0_all s (count : Z) :
  (Z.of_nat (String.length s) <= count)%Z -> substr_0 count s = s.
Proof.
  revert count. induction s as [|c s IH]; intros count H; [done|].
  cbn [String.length] in H. cbn [substr_0].
  rewrite decide_True by lia. by rewrite IH by lia.
Qed.

Lemma to_size_t_id (w z : Z) :
  (0 <= z <= SIZE_MAX w)%Z -> to_size_t w z = z.
Proof.
  unfold to_size_t, SIZE_MAX. intros H. apply Z.mod_small. lia.
Qed.

Lemma to_size_t_neg (w z : Z) :
  (0 < z <= SIZE_MAX w)%Z -> to_size_t w (- z) = (SIZE_MAX w + 1 - z)%Z.
Proof.
  unfold to_size_t, SIZE_MAX. intros H.
  symmetry. apply (Z.mod_unique _ _ (-1)); lia.
Qed.

End StringFacts.

Section SetIBLProperties.

Variables (w : Z) (FileExists : string -> bool) (resource_path : string).

(** The test on a path of at least eight characters that fit [size_t]:
    it holds exactly when the first occurrence of the suffix is the one
    that ends the path. *)
Lemma ends_with_ibl_long (path : string) :
  8 <= String.length path ->
  (Z.of_nat (String.length path) <= SIZE_MAX w)%Z ->
  ends_with_ibl w path = true
  <-> find_first "_ibl.ktx" path 0 = Some (String.length path - 8).
Proof.
  intros Hlen Hmax. unfold ends_with_ibl, string_find, string_size.
  rewrite bool_decide_eq_true.
  rewrite (to_size_t_id w (Z.of_nat _)) by lia.
  rewrite (to_size_t_id w (_ - 8)) by lia.
  destruct (find_first _ path 0) as [i|] eqn:Hf.
  - destruct (find_first_Some _ _ _ _ Hf) as (a & b & Hp & Hi).
    assert (i + 8 <= String.length path).
    { rewrite Hp, !string_length_app. cbn. lia. }
    rewrite to_size_t_id by lia.
    split; [intros ?; f_equal; lia|intros [= ->]; lia].
  - rewrite to_size_t_minus_one. split; [lia|done].
Qed.

(** X24: a path that exists as a file while the path with [_ibl.ktx]
    appended does not, of eight characters or more: either the stored name
    is the path without its last eight characters, which are [_ibl.ktx],
    and the light is set from it, or the stored name stays and a warning is
    logged; the second happens exactly when the first [_ibl.ktx] in the
    path is not the one that ends it (so also for a path that ends with it
    and has it once more before). *)
Theorem SetIBL_existing_file (ibl_path path : string) :
  8 <= String.length path ->
  (Z.of_nat (String.length path) <= SIZE_MAX w)%Z ->
  FileExists (path +:+ "_ibl.ktx") = false ->
  FileExists path = true ->
  let r := SetIBL w FileExists resource_path ibl_path path in
  (find_first "_ibl.ktx" path 0 = Some (String.length path - 8) /\
   path = r.1 +:+ "_ibl.ktx" /\
   r.2 = [Scene_SetIndirectLight r.1; SceneWidget_ForceRedraw])
  \/ (find_first "_ibl.ktx" path 0 <> Some (String.length path - 8) /\
      r = (ibl_path, [Log_Warning])).
Proof.
  intros Hlen Hmax Hno Hyes r. subst r. unfold SetIBL.
  rewrite decide_False by (intros ->; cbn in Hlen; lia).
  rewrite Hno, Hyes.
  pose proof (ends_with_ibl_long path Hlen Hmax) as Htest.
  destruct (ends_with_ibl w path).
  - left. assert (Hf : find_first "_ibl.ktx" path 0
                       = Some (String.length path - 8)) by by apply Htest.
    split; [done|]. cbn [fst snd]. split; [|done].
    destruct (find_first_Some _ _ _ _ Hf) as (a & b & Hp & Hi).
    assert (Hb : b = EmptyString).
    { apply string_length_0.
      apply (f_equal String.length) in Hp.
      rewrite !string_length_app in Hp. cbn in Hp. lia. }
    subst b. change (path = a +:+ "_ibl.ktx") in Hp.
    assert (Hs : substr_0 (to_size_t w (string_size w path - 8)) path = a).
    { unfold string_size. rewrite (to_size_t_id w (Z.of_nat _)) by lia.
      rewrite to_size_t_id by lia.
      replace (Z.of_nat (String.length path) - 8)%Z
        with (Z.of_nat (String.length a)).
      - rewrite Hp. apply substr_0_app.
      - rewrite Hp, string_length_app. cbn [String.length]. lia. }
    by rewrite Hs.
  - right. split; [|done]. intros Hf. by apply Htest in Hf.
Qed.

(** X25: a path that exists as a file while the path with [_ibl.ktx]
    appended does not, of fewer than eight characters: [size() - 8] wraps
    around, and a path of exactly seven characters, which cannot contain
    [_ibl.ktx], passes the test, [find] giving [npos]: the whole path is
    stored and the light set from it.  Shorter paths are refused with the
    warning. *)
Theorem SetIBL_short_path (ibl_path path : string) :
  (8 <= SIZE_MAX w)%Z ->
  0 < String.length path < 8 ->
  FileExists (path +:+ "_ibl.ktx") = false ->
  FileExists path = true ->
  SetIBL w FileExists resource_path ibl_path path
  = if decide (String.length path = 7)
    then (path, [Scene_SetIndirectLight path; SceneWidget_ForceRedraw])
    else (ibl_path, [Log_Warning]).
Proof.
  intros Hw Hlen Hno Hyes. unfold SetIBL.
  rewrite decide_False by (intros ->; cbn in Hlen; lia).
  rewrite Hno, Hyes.
  unfold ends_with_ibl, string_find, string_size.
  rewrite (find_first_short "_ibl.ktx" path 0) by (cbn; lia).
  rewrite (to_size_t_id w (Z.of_nat _)) by lia.
  rewrite to_size_t_minus_one.
  replace (Z.of_nat (String.length path) - 8)%Z
    with (- (8 - Z.of_nat (String.length path)))%Z by lia.
  rewrite to_size_t_neg by lia.
  destruct (decide (String.length path = 7)) as [H7|H7].
  - rewrite bool_decide_eq_true_2 by lia.
    rewrite substr_0_all by lia. done.
  - rewrite bool_decide_eq_false_2 by lia. done.
Qed.

(** X26: whatever the files, [SetIBL] changes the stored name only
    together with setting the light from the new name and a redraw; when
    the name is kept, nothing is done to the scene. *)
Theorem SetIBL_light_follows_name (ibl_path path : string) :
  let r := SetIBL w FileExists resource_path ibl_path path in
  r.2 = [Scene_SetIndirectLight r.1; SceneWidget_ForceRedraw]
  \/ (r.1 = ibl_path /\ (r.2 = [Log_Warning] \/ r.2 = [])).
Proof.
  cbv zeta. unfold SetIBL.
  repeat match goal with
         | |- context [if ?c then _ else _] => destruct c
         end; cbn [fst snd]; auto.
Qed.

End SetIBLProperties.

Lemma SetIBL_existing_file_witness :
  let FileExists := fun s => bool_decide (s = "sky_ibl.ktx") in
  let r := SetIBL 64%Z FileExists "/r" "old" "sky_ibl.ktx" in
  (find_first "_ibl.ktx" "sky_ibl.ktx" 0 = Some 3 /\
   "sky_ibl.ktx" = r.1 +:+ "_ibl.ktx" /\
   r.2 = [Scene_SetIndirectLight r.1; SceneWidget_ForceRedraw])
  \/ (find_first "_ibl.ktx" "sky_ibl.ktx" 0 <> Some 3 /\
      r = ("old", [Log_Warning])).
Proof.
  apply (SetIBL_existing_file 64%Z (fun s => bool_decide (s = "sky_ibl.ktx"))
           "/r" "old" "sky_ibl.ktx");
    [cbn; lia|vm_compute; discriminate|reflexivity|reflexivity].
Defined.

Lemma SetIBL_short_path_witness :
  SetIBL 64%Z (fun s => bool_decide (s = "abc.ktx")) "/r" "old" "abc.ktx"
  = ("abc.ktx", [Scene_SetIndirectLight "abc.ktx"; SceneWidget_ForceRedraw]).
Proof.
  apply (SetIBL_short_path 64%Z (fun s => bool_decide (s = "abc.ktx"))
           "/r" "old" "abc.ktx");
    [vm_compute; discriminate|cbn; lia|reflexivity|reflexivity].
Defined.
